(** * MoCo training loop (train.py): shuffle indices, feature dictionary,
      contrastive loss and the epoch driver, embedded and verified.

    The embedding follows train.py statement by statement.  Tensors that the
    loop treats as ordered sequences of embedding vectors (the batches [q],
    [k] and the [queue]) are lists of rows; the tensor algebra of the loss
    ([view], [bmm], [mm], [t], [cat], division, cross entropy) is carried out
    on shape-carrying tensors.  Scalars are abstract: every statement below
    holds for any arithmetic that implements the operations, floating point
    included, unless it lists the arithmetic laws it needs. *)

From Stdlib Require Import ZArith Lia.
From stdpp Require Import base tactics option numbers list.

(** ** Scalars *)

(** The arithmetic of a tensor element type. *)
Class Arith (R : Type) := {
  r_zero : R;
  r_one : R;
  r_add : R -> R -> R;
  r_sub : R -> R -> R;
  r_mul : R -> R -> R;
  r_div : R -> R -> R;
  r_of_nat : nat -> R
}.

(** The transcendental functions used by the cross entropy. *)
Class Transc (R : Type) := {
  r_exp : R -> R;
  r_log : R -> R
}.

(** Exact arithmetic: the laws the momentum rule needs at [beta = 0]. *)
Class ExactArith (R : Type) `{Arith R} : Prop := {
  r_mul_zero_l : forall x : R, r_mul r_zero x = r_zero;
  r_mul_one_l : forall x : R, r_mul r_one x = x;
  r_sub_zero_r : forall x : R, r_sub x r_zero = x;
  r_add_zero_l : forall x : R, r_add r_zero x = x
}.

(** ** Exceptions and results *)

(** The two ways in which the loop can fail: an index outside a tensor, and
    Python's division by zero. *)
Inductive exn : Type :=
| IndexError
| ZeroDivisionError.

Inductive result (A : Type) : Type :=
| Ok (a : A)
| Raise (e : exn).

Arguments Ok {A} a.
Arguments Raise {A} e.

(** ** Indexing along dimension 0 *)

(** [x[idx]] for an index tensor [idx]: the rows of [x] at the positions
    listed, in that order; an index past the end raises. *)
Fixpoint index_select {A : Type} (x : list A) (idx : list nat) : result (list A) :=
  match idx with
  | [] => Ok []
  | i :: idx' =>
      match x !! i with
      | None => Raise IndexError
      | Some row =>
          match index_select x idx' with
          | Ok rows => Ok (row :: rows)
          | Raise e => Raise e
          end
      end
  end.

(** [self.index_copy_(0, index, source)]: [self[index[j]] = source[j]] for
    every [j], in order; the two must have the same length and every index
    must be inside [self]. *)
Fixpoint index_copy_loop {A : Type} (self : list A) (index : list nat) (source : list A)
  : result (list A) :=
  match index, source with
  | [], [] => Ok self
  | i :: index', v :: source' =>
      if decide (i < length self)
      then index_copy_loop (<[i := v]> self) index' source'
      else Raise IndexError
  | _, _ => Raise IndexError
  end.

Definition index_copy_ {A : Type} (self : list A) (index : list nat) (source : list A)
  : result (list A) :=
  index_copy_loop self index source.

(** ** The feature dictionary (utils.queue_data, utils.dequeue_data) *)

(** Modelled from the spec: utils.queue_data is not part of the sources.
    The spec's enqueue "appends a batch of embedding vectors to the end of
    the sequence". *)
Definition queue_data {A : Type} (data k : list A) : list A := data ++ k.

(** Modelled from the spec: utils.dequeue_data is not part of the sources.
    The spec's evict_to_capacity: "if sequence length > capacity, removes
    entries from the front until length == capacity".  One entry is removed
    from the front as long as the length exceeds the capacity; with a
    negative capacity that stops at the empty sequence. *)
Fixpoint dequeue_data {A : Type} (data : list A) (K : Z) : list A :=
  match data with
  | [] => []
  | _ :: rest => if (Z.of_nat (length data) >? K)%Z then dequeue_data rest K else data
  end.

(** The test of line 45, [K >= dictionary_size] with [K = queue.shape[0]],
    as a function of the two; the spec calls it is_ready. *)
Definition is_ready (K : nat) (capacity : Z) : bool := (Z.of_nat K >=? capacity)%Z.

(** Lines 63-64 of train.py, iterated over the key batches of successive
    steps. *)
Definition enqueue_evict {A : Type} (capacity : Z) (queue k : list A) : list A :=
  dequeue_data (queue_data queue k) capacity.

Definition dictionary_run {A : Type} (capacity : Z) (queue : list A) (batches : list (list A))
  : list A :=
  fold_left (enqueue_evict capacity) batches queue.

(** The most recent [n] entries of a sequence, in order. *)
Definition most_recent {A : Type} (n : nat) (l : list A) : list A :=
  drop (length l - n) l.

(** ** The momentum rule (utils.momentum_update) *)

Section Momentum.
Context {R : Type} `{Arith R}.

(** Modelled from the spec: utils.momentum_update is not part of the sources.
    The spec's rule, parameter by parameter:
    theta_k <- beta * theta_k + (1 - beta) * theta_q. *)
Definition momentum_rule (beta theta_k theta_q : R) : R :=
  r_add (r_mul beta theta_k) (r_mul (r_sub r_one beta) theta_q).

(** Modelled from the spec: the rule is applied to every key parameter and
    the query parameter that corresponds to it. *)
Definition momentum_update (theta_q theta_k : list R) (beta : R) : list R :=
  zip_with (momentum_rule beta) theta_k theta_q.

End Momentum.

(** ** Tensor algebra of the loss *)

Section Tensor.
Context {R : Type} `{Arith R, Transc R}.

(** A matrix with its shape; [at2 i j] is the element of row [i], column
    [j]. *)
Record tensor2 : Type := Tensor2 {
  rows2 : nat;
  cols2 : nat;
  at2 : nat -> nat -> R
}.

Record tensor3 : Type := Tensor3 {
  dim0 : nat;
  dim1 : nat;
  dim2 : nat;
  at3 : nat -> nat -> nat -> R
}.

(** Sum of [f 0 .. f (n-1)], left to right. *)
Definition r_sum (n : nat) (f : nat -> R) : R :=
  fold_left (fun acc i => r_add acc (f i)) (seq 0 n) r_zero.

(** A batch of [d]-dimensional rows as an (N, d) tensor. *)
Definition tensor_of_rows (d : nat) (m : list (list R)) : tensor2 :=
  {| rows2 := length m;
     cols2 := d;
     at2 := fun i j => nth j (nth i m []) r_zero |}.

Definition numel2 (x : tensor2) : nat := rows2 x * cols2 x.

(** Element at a position of the row-major storage. *)
Definition flat2 (x : tensor2) (p : nat) : R :=
  at2 x (p / cols2 x) (p mod cols2 x).

Definition flat3 (x : tensor3) (p : nat) : R :=
  at3 x (p / (dim1 x * dim2 x)) ((p / dim2 x) mod dim1 x) (p mod dim2 x).

(** The size [view] infers for a [-1] dimension. *)
Definition infer_dim (numel known : nat) : nat := numel / known.

(** [x.view(a, b, c)]: the same storage read with another shape. *)
Definition view3 (a b c : nat) (x : tensor2) : tensor3 :=
  {| dim0 := a; dim1 := b; dim2 := c;
     at3 := fun i j k => flat2 x (i * (b * c) + j * c + k) |}.

(** [x.view(a, b)] of a three-dimensional tensor. *)
Definition view2 (a b : nat) (x : tensor3) : tensor2 :=
  {| rows2 := a; cols2 := b;
     at2 := fun i j => flat3 x (i * b + j) |}.

(** [torch.bmm]: one matrix product per batch entry. *)
Definition bmm (x y : tensor3) : tensor3 :=
  {| dim0 := dim0 x; dim1 := dim1 x; dim2 := dim2 y;
     at3 := fun b i j => r_sum (dim2 x) (fun d => r_mul (at3 x b i d) (at3 y b d j)) |}.

(** [torch.mm]. *)
Definition mm (x y : tensor2) : tensor2 :=
  {| rows2 := rows2 x; cols2 := cols2 y;
     at2 := fun i j => r_sum (cols2 x) (fun d => r_mul (at2 x i d) (at2 y d j)) |}.

(** [x.t().contiguous()]. *)
Definition t (x : tensor2) : tensor2 :=
  {| rows2 := cols2 x; cols2 := rows2 x; at2 := fun i j => at2 x j i |}.

(** [torch.cat([x, y], dim=-1)]. *)
Definition cat_last (x y : tensor2) : tensor2 :=
  {| rows2 := rows2 x; cols2 := cols2 x + cols2 y;
     at2 := fun i j => if decide (j < cols2 x) then at2 x i j else at2 y i (j - cols2 x) |}.

(** [x / s] for a scalar [s]. *)
Definition div_scalar (x : tensor2) (s : R) : tensor2 :=
  {| rows2 := rows2 x; cols2 := cols2 x; at2 := fun i j => r_div (at2 x i j) s |}.

(** [torch.zeros(N, dtype=torch.long)]. *)
Definition zeros_long (N : nat) : list nat := replicate N 0.

(** The cross entropy of one row of logits against its class. *)
Definition cross_entropy_row (logits : tensor2) (i class : nat) : R :=
  r_sub (r_log (r_sum (cols2 logits) (fun j => r_exp (at2 logits i j))))
        (at2 logits i class).

(** [nn.CrossEntropyLoss()] with its default reduction, the mean over the
    batch. *)
Definition cross_entropy_loss (logits : tensor2) (labels : list nat) : R :=
  r_div (r_sum (rows2 logits) (fun i => cross_entropy_row logits i (nth i labels 0)))
        (r_of_nat (rows2 logits)).

(** Lines 46-51 of train.py. *)
Definition l_pos_of (N : nat) (q k : tensor2) : tensor3 :=
  bmm (view3 N 1 (infer_dim (numel2 q) (N * 1)) q)
      (view3 N (infer_dim (numel2 k) (N * 1)) 1 k).

Definition l_neg_of (q queue : tensor2) : tensor2 := mm q (t queue).

Definition logits_of (N : nat) (q k queue : tensor2) : tensor2 :=
  cat_last (view2 N 1 (l_pos_of N q k)) (l_neg_of q queue).

Definition contrastive_loss (N : nat) (q k queue : tensor2) (temp : R) : R :=
  cross_entropy_loss (div_scalar (logits_of N q k queue) temp) (zeros_long N).

(** *** The loss as the specification words it *)

(** Inner product of two [d]-dimensional rows. *)
Definition dot (d : nat) (u v : list R) : R :=
  r_sum d (fun c => r_mul (nth c u r_zero) (nth c v r_zero)).

(** Row of example [i]: the positive logit first, then one logit per
    dictionary entry, every entry divided by the temperature. *)
Definition spec_row (d : nat) (temp : R) (Q K M : list (list R)) (i : nat) : list R :=
  map (fun x => r_div x temp)
      (dot d (nth i Q []) (nth i K []) :: map (fun m => dot d (nth i Q []) m) M).

(** Cross entropy of a row of logits with correct class 0. *)
Definition spec_row_loss (row : list R) : R :=
  r_sub (r_log (r_sum (length row) (fun j => r_exp (nth j row r_zero))))
        (nth 0 row r_zero).

(** Mean over the batch. *)
Definition spec_loss (d : nat) (temp : R) (Q K M : list (list R)) : R :=
  r_div (r_sum (length Q) (fun i => spec_row_loss (spec_row d temp Q K M i)))
        (r_of_nat (length Q)).

End Tensor.

Arguments tensor2 R : clear implicits.
Arguments tensor3 R : clear implicits.

(** ** External collaborators *)

(** What train.py takes from torch, from model.Net and from the data loader:
    the encoder's forward pass, the random permutation, and autograd with the
    SGD optimizer and its learning-rate schedule. *)
Record World (R : Type) : Type := {
  Img : Type;
  Rng : Type;
  Optim : Type;
  (** [Net.forward] in training mode under the given parameters, on a whole
      batch (batch normalisation couples the rows of a batch).  Both networks
      are built by [Net(model_type, features_dim)] (lines 117-118), so the
      rows it returns have [features_dim] entries.  The running statistics
      that batch normalisation keeps are not part of the model. *)
  forward : list R -> list Img -> list (list R);
  (** [torch.randperm]. *)
  randperm : Rng -> nat -> list nat * Rng;
  (** [optimizer.zero_grad()]. *)
  zero_grad : Optim -> Optim;
  (** [loss.backward()] for the loss of a step, a function of the query
      parameters, the query batch, the keys, the dictionary and the
      temperature. *)
  backward : Optim -> list R -> list Img -> list (list R) -> list (list R) -> R -> Optim;
  (** [optimizer.step()]: the new optimizer state and query parameters. *)
  optimizer_step : Optim -> list R -> Optim * list R;
  (** [lr_scheduler.step(epoch)]. *)
  lr_scheduler_step : Optim -> nat -> Optim
}.

Arguments Img {R} _.
Arguments Rng {R} _.
Arguments Optim {R} _.
Arguments forward {R} _ _ _.
Arguments randperm {R} _ _ _.
Arguments zero_grad {R} _ _.
Arguments backward {R} _ _ _ _ _ _ _.
Arguments optimizer_step {R} _ _ _.
Arguments lr_scheduler_step {R} _ _ _.

(** The contracts of the collaborators that the loop relies on. *)
Class WorldOk {R : Type} (W : World R) : Prop := {
  randperm_permutation : forall g n, (randperm W g n).1 ≡ₚ seq 0 n;
  forward_length : forall theta xs, length (forward W theta xs) = length xs
}.

(** The command-line arguments read by the training loop (module-level
    globals of train.py).  [features_dim] is a size handed to the network
    constructor; it is kept as a natural number. *)
Record Args : Type := {
  epochs : Z;
  features_dim : nat;
  dictionary_size : Z
}.

(** ** Program state, events and the monad of the loop *)

(** What a run does, in program order.  Events are a record kept beside the
    computation; nothing the program computes depends on them. *)
Inductive event (R : Type) : Type :=
| EvStep (N : nat) (queue : list (list R))   (* line 35: a step begins *)
| EvForwardQ                                 (* line 37 *)
| EvShuffle (shuffle_idx reverse_idx : list nat)   (* line 40 *)
| EvForwardK                                 (* line 42 *)
| EvLoss (temp : R) (negatives : nat) (loss : R)   (* lines 46-51 *)
| EvZeroGrad                                 (* line 53 *)
| EvBackward                                 (* line 54 *)
| EvOptimizerStep                            (* line 55 *)
| EvMomentum (beta : R)                      (* lines 60 and 121 *)
| EvEnqueue (k : list (list R))              (* line 63 *)
| EvEvict (capacity : Z)                     (* line 64 *)
| EvTest (epoch : nat)                       (* line 132 *)
| EvLrStep (epoch : nat).                    (* line 139 *)

Arguments EvStep {R} N queue.
Arguments EvForwardQ {R}.
Arguments EvShuffle {R} shuffle_idx reverse_idx.
Arguments EvForwardK {R}.
Arguments EvLoss {R} temp negatives loss.
Arguments EvZeroGrad {R}.
Arguments EvBackward {R}.
Arguments EvOptimizerStep {R}.
Arguments EvMomentum {R} beta.
Arguments EvEnqueue {R} k.
Arguments EvEvict {R} capacity.
Arguments EvTest {R} epoch.
Arguments EvLrStep {R} epoch.

Section Loop.
Context {R : Type} `{Arith R, Transc R}.
Variable W : World R.

(** The objects that live across steps and epochs. *)
Record state : Type := State {
  model_q : list R;
  model_k : list R;
  optimizer : Optim W;
  rng : Rng W;
  trace : list (event R)
}.

(** The local variables of [train] that the loop updates. *)
Record locals : Type := Locals {
  total_loss : R;
  n_data : nat;
  queue : list (list R)
}.

(** Stateful computations that may raise; the state survives a raise. *)
Definition M (A : Type) : Type := state -> result A * state.

Definition ret {A : Type} (a : A) : M A := fun s => (Ok a, s).

Definition bind {A B : Type} (c : M A) (f : A -> M B) : M B :=
  fun s =>
    match c s with
    | (Ok a, s') => f a s'
    | (Raise e, s') => (Raise e, s')
    end.

Definition lift {A : Type} (r : result A) : M A := fun s => (r, s).

Definition emit (e : event R) : M unit :=
  fun s => (Ok tt, State (model_q s) (model_k s) (optimizer s) (rng s) (trace s ++ [e])).

Notation "x <- c1 ;; c2" := (bind c1 (fun x => c2))
  (at level 100, c1 at next level, right associativity).
Notation "c1 ;;; c2" := (bind c1 (fun _ => c2))
  (at level 100, right associativity).

(** ** get_shuffle_idx (lines 19-25) *)

Definition torch_randperm (n : nat) : M (list nat) :=
  fun s =>
    let '(p, g) := randperm W (rng s) n in
    (Ok p, State (model_q s) (model_k s) (optimizer s) g (trace s)).

Definition get_shuffle_idx (num_data : nat) : M (list nat * list nat) :=
  shuffle_value <- torch_randperm num_data ;;
  let reverse_idx := replicate num_data 0 in
  let arrange_index := seq 0 num_data in
  reverse_idx <- lift (index_copy_ reverse_idx shuffle_value arrange_index) ;;
  ret (shuffle_value, reverse_idx).

(** ** Calls into the collaborators *)

Definition call_model_q (x : list (Img W)) : M (list (list R)) :=
  fun s => (Ok (forward W (model_q s) x), s).

Definition call_model_k (x : list (Img W)) : M (list (list R)) :=
  fun s => (Ok (forward W (model_k s) x), s).

Definition optimizer_zero_grad : M unit :=
  fun s => (Ok tt, State (model_q s) (model_k s) (zero_grad W (optimizer s)) (rng s) (trace s)).

Definition loss_backward (x_q : list (Img W)) (k queue : list (list R)) (temp : R) : M unit :=
  fun s =>
    (Ok tt, State (model_q s) (model_k s)
                  (backward W (optimizer s) (model_q s) x_q k queue temp)
                  (rng s) (trace s)).

Definition optimizer_do_step : M unit :=
  fun s =>
    let '(o, theta_q) := optimizer_step W (optimizer s) (model_q s) in
    (Ok tt, State theta_q (model_k s) o (rng s) (trace s)).

Definition scheduler_step (epoch : nat) : M unit :=
  fun s =>
    (Ok tt, State (model_q s) (model_k s) (lr_scheduler_step W (optimizer s) epoch)
                  (rng s) (trace s)).

(** [utils.momentum_update(model_q, model_k, beta)]: the key parameters are
    overwritten in place. *)
Definition utils_momentum_update (beta : R) : M unit :=
  fun s =>
    (Ok tt, State (model_q s) (momentum_update (model_q s) (model_k s) beta)
                  (optimizer s) (rng s) (trace s)).

(** Python's [/] of a float by an integer count. *)
Definition py_div (x : R) (n : nat) : M R :=
  if decide (n = 0) then lift (Raise ZeroDivisionError) else ret (r_div x (r_of_nat n)).

(** ** train (lines 28-66) *)

Variable args : Args.

(** Modelled from the spec: the default momentum coefficient of
    utils.momentum_update, declared in utils, which is not part of the
    sources; the spec has it in [0,1). *)
Variable beta_default : R.

(** One iteration of the loop over the loader (lines 33-64). *)
Definition train_step (temp : R) (loc : locals) (data : list (Img W)) : M locals :=
  let x_q := data in
  let x_k := data in
  let N := length x_q in
  let K := length (queue loc) in
  emit (EvStep N (queue loc)) ;;;
  q <- call_model_q x_q ;;
  emit EvForwardQ ;;;
  idx <- get_shuffle_idx N ;;
  let shuffle_idx := idx.1 in
  let reverse_idx := idx.2 in
  emit (EvShuffle shuffle_idx reverse_idx) ;;;
  x_k <- lift (index_select x_k shuffle_idx) ;;
  k <- call_model_k x_k ;;
  emit EvForwardK ;;;
  k <- lift (index_select k reverse_idx) ;;
  loc <- (if (Z.of_nat K >=? dictionary_size args)%Z
          then
            let q_t := tensor_of_rows (features_dim args) q in
            let k_t := tensor_of_rows (features_dim args) k in
            let queue_t := tensor_of_rows (features_dim args) (queue loc) in
            let l_pos := l_pos_of N q_t k_t in
            let l_neg := l_neg_of q_t queue_t in
            let logits := cat_last (view2 N 1 l_pos) l_neg in
            let labels := zeros_long N in
            let loss := cross_entropy_loss (div_scalar logits temp) labels in
            emit (EvLoss temp (cols2 l_neg) loss) ;;;
            optimizer_zero_grad ;;;
            emit EvZeroGrad ;;;
            loss_backward x_q k (queue loc) temp ;;;
            emit EvBackward ;;;
            optimizer_do_step ;;;
            emit EvOptimizerStep ;;;
            let n_data' := n_data loc + N in
            let total_loss' := r_add (total_loss loc) (r_mul loss (r_of_nat N)) in
            utils_momentum_update beta_default ;;;
            emit (EvMomentum beta_default) ;;;
            py_div total_loss' n_data' ;;;
            ret (Locals total_loss' n_data' (queue loc))
          else ret loc) ;;
  let queue' := queue_data (queue loc) k in
  emit (EvEnqueue k) ;;;
  let queue'' := dequeue_data queue' (dictionary_size args) in
  emit (EvEvict (dictionary_size args)) ;;;
  ret (Locals (total_loss loc) (n_data loc) queue'').

(** The [for] loop of [train]. *)
Fixpoint train_loop (temp : R) (loc : locals) (train_loader : list (list (Img W)))
  : M locals :=
  match train_loader with
  | [] => ret loc
  | data :: rest =>
      loc' <- train_step temp loc data ;;
      train_loop temp loc' rest
  end.

(** The local variables as line 30-31 initialise them. *)
Definition train_locals : locals := Locals r_zero 0 [].

Definition train (train_loader : list (list (Img W))) (epoch : nat) (temp : R) : M R :=
  loc <- train_loop temp train_locals train_loader ;;
  py_div (total_loss loc) (n_data loc).

(** ** The main program (lines 117-142) *)

(** The default of [train]'s parameter [temp], 0.07. *)
Definition temp_default : R := r_div (r_of_nat 7) (r_of_nat 100).

(** The loop over epochs (lines 129-142); the loader delivers its batches in
    a fresh order every epoch.  The evaluation of line 132 does not touch the
    training state and is recorded as an event only; writing the statistics
    and the checkpoint (lines 136-142) is left out. *)
Fixpoint epoch_loop (train_loader : nat -> list (list (Img W))) (todo : list nat)
    (results : list R) : M (list R) :=
  match todo with
  | [] => ret results
  | epoch :: rest =>
      current_loss <- train (train_loader epoch) epoch temp_default ;;
      emit (EvTest epoch) ;;;
      scheduler_step epoch ;;;
      emit (EvLrStep epoch) ;;;
      epoch_loop train_loader rest (results ++ [current_loss])
  end.

(** [range(1, epochs + 1)]. *)
Definition epoch_range : list nat := seq 1 (Z.to_nat (epochs args)).

(** Initialisation of the key encoder (line 121): one momentum update with
    coefficient 0. *)
Definition main_init : M unit :=
  utils_momentum_update r_zero ;;;
  emit (EvMomentum r_zero).

Definition main (train_loader : nat -> list (list (Img W))) : M (list R) :=
  main_init ;;;
  epoch_loop train_loader epoch_range [].

(** The state in which the main program starts: two freshly constructed
    networks, the optimizer and the random generator. *)
Definition initial_state (theta_q theta_k : list R) (o : Optim W) (g : Rng W) : state :=
  State theta_q theta_k o g [].

End Loop.

Arguments state {R} W.
Arguments locals R : clear implicits.

(** ** Observations on traces *)

Section Observers.
Context {R : Type}.

(** The dictionary each step saw when it began. *)
Definition step_queues (tr : list (event R)) : list (list (list R)) :=
  omap (fun e => match e with EvStep _ q => Some q | _ => None end) tr.

(** The key batch each step enqueued. *)
Definition step_keys (tr : list (event R)) : list (list (list R)) :=
  omap (fun e => match e with EvEnqueue k => Some k | _ => None end) tr.

Definition is_loss (e : event R) : bool :=
  match e with EvLoss _ _ _ => true | _ => false end.

Definition is_optimizer_step (e : event R) : bool :=
  match e with EvOptimizerStep => true | _ => false end.

Definition is_momentum (e : event R) : bool :=
  match e with EvMomentum _ => true | _ => false end.

Definition is_enqueue (e : event R) : bool :=
  match e with EvEnqueue _ => true | _ => false end.

Definition is_evict (e : event R) : bool :=
  match e with EvEvict _ => true | _ => false end.

Definition is_step (e : event R) : bool :=
  match e with EvStep _ _ => true | _ => false end.

(** Does the trace contain an event of the given kind? *)
Definition occurs (p : event R -> bool) (tr : list (event R)) : bool := existsb p tr.

(** How many events of the given kind does the trace contain? *)
Definition count (p : event R -> bool) (tr : list (event R)) : nat :=
  length (List.filter p tr).

(** The dictionaries that successive steps see when one dictionary is kept
    from step to step: the first sees [q], each later one what enqueueing
    and evicting the previous key batch left. *)
Fixpoint dictionary_history (capacity : Z) (q : list (list R)) (ks : list (list (list R)))
  : list (list (list R)) :=
  match ks with
  | [] => []
  | k :: ks' => q :: dictionary_history capacity (enqueue_evict capacity q k) ks'
  end.

End Observers.

(** ** Concrete instances *)

(** Uninterpreted scalars: every operation is recorded, none is evaluated. *)
Inductive sym : Type :=
| SNat (n : nat)
| SAdd (a b : sym)
| SSub (a b : sym)
| SMul (a b : sym)
| SDiv (a b : sym)
| SExp (a : sym)
| SLog (a : sym).

#[export] Instance sym_arith : Arith sym :=
  {| r_zero := SNat 0; r_one := SNat 1; r_add := SAdd; r_sub := SSub;
     r_mul := SMul; r_div := SDiv; r_of_nat := SNat |}.

#[export] Instance sym_transc : Transc sym :=
  {| r_exp := SExp; r_log := SLog |}.

(** Integer arithmetic, which is exact. *)
#[export] Instance Z_arith : Arith Z :=
  {| r_zero := 0%Z; r_one := 1%Z; r_add := Z.add; r_sub := Z.sub;
     r_mul := Z.mul; r_div := Z.div; r_of_nat := Z.of_nat |}.

(** The integer exponential and logarithm to base two. *)
#[export] Instance Z_transc : Transc Z :=
  {| r_exp := Z.pow 2; r_log := Z.log2 |}.

(** A small world: an image is a number, the encoder scales its parameter
    vector by the image, [randperm] reverses, the optimizer counts its steps
    and moves every parameter by one. *)
Definition toy_world (R : Type) `{Arith R} : World R :=
  {| Img := nat;
     Rng := nat;
     Optim := nat;
     forward := fun theta xs => map (fun x => map (fun w => r_mul w (r_of_nat x)) theta) xs;
     randperm := fun g n => (rev (seq 0 n), S g);
     zero_grad := fun o => o;
     backward := fun o _ _ _ _ _ => o;
     optimizer_step := fun o theta => (S o, map (fun w => r_sub w r_one) theta);
     lr_scheduler_step := fun o _ => o |}.

(** Two-dimensional features, a dictionary of two entries. *)
Definition toy_args (capacity : Z) (n_epochs : Z) : Args :=
  {| epochs := n_epochs; features_dim := 2; dictionary_size := capacity |}.

Definition toy_state : state (toy_world sym) :=
  initial_state (toy_world sym) [SNat 1; SNat 2] [SNat 3; SNat 4] 0 0.

(** ** Auxiliary notions *)

(** [reverse] undoes [shuffle] on the indices below [N]. *)
Definition inverse_pair (N : nat) (shuffle reverse : list nat) : Prop :=
  shuffle ≡ₚ seq 0 N /\
  length reverse = N /\
  forall j i, shuffle !! j = Some i -> reverse !! i = Some j.

(** The rows an indexing yields, for use where it is known not to raise. *)
Definition rows_of {A : Type} (r : result (list A)) : list A :=
  match r with
  | Ok rows => rows
  | Raise _ => []
  end.

(** Number of samples a loader delivers in one epoch. *)
Definition n_samples {A : Type} (train_loader : list (list A)) : nat :=
  length (concat train_loader).

(** ** The outcome of a step in closed form *)

Section Outcome.
Context {R : Type} `{Arith R, Transc R}.
Variable W : World R.
Variable args : Args.
Variable beta_default : R.

Definition step_shuffle (g : Rng W) (N : nat) : list nat :=
  (randperm W g N).1.

Definition step_reverse (g : Rng W) (N : nat) : list nat :=
  rows_of (index_copy_ (replicate N 0) (step_shuffle g N) (seq 0 N)).

(** The query batch of a step. *)
Definition step_q (s : state W) (data : list (Img W)) : list (list R) :=
  forward W (model_q W s) data.

(** The key batch of a step, back in the order of the input batch. *)
Definition step_k (s : state W) (data : list (Img W)) : list (list R) :=
  let N := length data in
  rows_of (index_select
             (forward W (model_k W s)
                      (rows_of (index_select data (step_shuffle (rng W s) N))))
             (step_reverse (rng W s) N)).

Definition step_ready (loc : locals R) : bool :=
  is_ready (length (queue loc)) (dictionary_size args).

Definition step_loss (temp : R) (s : state W) (loc : locals R) (data : list (Img W)) : R :=
  contrastive_loss (length data)
    (tensor_of_rows (features_dim args) (step_q s data))
    (tensor_of_rows (features_dim args) (step_k s data))
    (tensor_of_rows (features_dim args) (queue loc))
    temp.

(** The events of the branch taken when the dictionary is ready. *)
Definition ready_events (temp : R) (s : state W) (loc : locals R) (data : list (Img W))
  : list (event R) :=
  [EvLoss temp (length (queue loc)) (step_loss temp s loc data);
   EvZeroGrad; EvBackward; EvOptimizerStep; EvMomentum beta_default].

Definition step_events (temp : R) (s : state W) (loc : locals R) (data : list (Img W))
  : list (event R) :=
  let N := length data in
  [EvStep N (queue loc); EvForwardQ;
   EvShuffle (step_shuffle (rng W s) N) (step_reverse (rng W s) N); EvForwardK]
  ++ (if step_ready loc then ready_events temp s loc data else [])
  ++ [EvEnqueue (step_k s data); EvEvict (dictionary_size args)].

(** The optimizer and the query parameters after the gradient step. *)
Definition step_gradient (temp : R) (s : state W) (loc : locals R) (data : list (Img W))
  : Optim W * list R :=
  optimizer_step W
    (backward W (zero_grad W (optimizer W s)) (model_q W s) data (step_k s data)
              (queue loc) temp)
    (model_q W s).

Definition step_state (temp : R) (s : state W) (loc : locals R) (data : list (Img W))
  : state W :=
  let g := (randperm W (rng W s) (length data)).2 in
  let tr := trace W s ++ step_events temp s loc data in
  if step_ready loc
  then
    let og := step_gradient temp s loc data in
    State W og.2 (momentum_update og.2 (model_k W s) beta_default) og.1 g tr
  else State W (model_q W s) (model_k W s) (optimizer W s) g tr.

Definition step_locals (temp : R) (s : state W) (loc : locals R) (data : list (Img W))
  : locals R :=
  let queue' := enqueue_evict (dictionary_size args) (queue loc) (step_k s data) in
  if step_ready loc
  then
    Locals
      (r_add (total_loss loc) (r_mul (step_loss temp s loc data) (r_of_nat (length data))))
      (n_data loc + length data)
      queue'
  else Locals (total_loss loc) (n_data loc) queue'.

(** The same for a whole pass over the loader. *)
Fixpoint loop_locals (temp : R) (s : state W) (loc : locals R)
    (train_loader : list (list (Img W))) : locals R :=
  match train_loader with
  | [] => loc
  | data :: rest =>
      loop_locals temp (step_state temp s loc data) (step_locals temp s loc data) rest
  end.

Fixpoint loop_state (temp : R) (s : state W) (loc : locals R)
    (train_loader : list (list (Img W))) : state W :=
  match train_loader with
  | [] => s
  | data :: rest =>
      loop_state temp (step_state temp s loc data) (step_locals temp s loc data) rest
  end.

(** The events a pass over the loader adds to the trace. *)
Fixpoint loop_events (temp : R) (s : state W) (loc : locals R)
    (train_loader : list (list (Img W))) : list (event R) :=
  match train_loader with
  | [] => []
  | data :: rest =>
      step_events temp s loc data
      ++ loop_events temp (step_state temp s loc data) (step_locals temp s loc data) rest
  end.

(** No division by zero can occur in the progress line of any step. *)
Fixpoint loop_defined (temp : R) (s : state W) (loc : locals R)
    (train_loader : list (list (Img W))) : Prop :=
  match train_loader with
  | [] => True
  | data :: rest =>
      (step_ready loc = true -> n_data loc + length data <> 0) /\
      loop_defined temp (step_state temp s loc data) (step_locals temp s loc data) rest
  end.

End Outcome.

(** ** Running a computation *)

Section Running.
Context {R : Type} (W : World R).

(** The events a computation adds to the trace when run from [s]. *)
Definition events_of {A : Type} (c : state W -> result A * state W) (s : state W)
  : list (event R) :=
  drop (length (trace W s)) (trace W (c s).2).

(** Every batch a data loader delivers holds at least one sample. *)
Definition loader_ok (train_loader : list (list (Img W))) : Prop :=
  Forall (fun data => data <> []) train_loader.

End Running.

(** ** Rows of a tensor *)

Section Rows.
Context {R : Type} `{Arith R}.

(** The logits of a step whose batches and dictionary are given as rows of
    dimension [d]. *)
Definition logits_of_rows (d : nat) (Q K M : list (list R)) : tensor2 R :=
  logits_of (length Q) (tensor_of_rows d Q) (tensor_of_rows d K) (tensor_of_rows d M).

(** Row [i] of a matrix as a list. *)
Definition row_of (x : tensor2 R) (i : nat) : list R :=
  map (at2 x i) (seq 0 (cols2 x)).

End Rows.

(** ** Readiness along an epoch *)

Section Readiness.
Context {R : Type} `{Arith R, Transc R}.
Variable W : World R.
Variable args : Args.
Variable beta_default : R.

(** No step of a pass over the loader, started with the local variables
    [loc], begins with a ready dictionary. *)
Definition never_ready (temp : R) (loc : locals R) (train_loader : list (list (Img W)))
    (s : state W) : Prop :=
  forall pre data post loc1 s1,
    train_loader = pre ++ data :: post ->
    train_loop W args beta_default temp loc pre s = (Ok loc1, s1) ->
    is_ready (length (queue loc1)) (dictionary_size args) = false.


(** The claim that one dictionary lives through the whole run: every step,
    in whichever epoch, begins with the dictionary the previous step left. *)
Definition dictionary_persists (train_loader : nat -> list (list (Img W)))
    (s : state W) : Prop :=
  let evs := events_of W (main W args beta_default train_loader) s in
  step_queues evs = dictionary_history (dictionary_size args) [] (step_keys evs).

End Readiness.


(** ** Epochs seen through the sizes of their batches *)

(** Does an epoch over this loader have a loss-producing step?  It has one
    exactly when the batches before the last one already hold as many samples
    as the dictionary has room for. *)
Definition epoch_trains {A : Type} (capacity : Z) (train_loader : list (list A)) : bool :=
  match train_loader with
  | [] => false
  | _ :: _ => (capacity <=? Z.of_nat (n_samples (removelast train_loader)))%Z
  end.

(** The epochs of a run that complete: those before the first epoch without
    a loss-producing step. *)
Fixpoint trained_prefix {A : Type} (capacity : Z) (train_loader : nat -> list (list A))
    (todo : list nat) : list nat :=
  match todo with
  | [] => []
  | epoch :: rest =>
      if epoch_trains capacity (train_loader epoch)
      then epoch :: trained_prefix capacity train_loader rest
      else []
  end.

Section EpochObservers.
Context {R : Type}.

(** The epochs whose evaluation ran, in order. *)
Definition tested_epochs (tr : list (event R)) : list nat :=
  omap (fun e => match e with EvTest epoch => Some epoch | _ => None end) tr.

(** The epochs after which the learning-rate schedule was stepped, in
    order. *)
Definition lr_stepped_epochs (tr : list (event R)) : list nat :=
  omap (fun e => match e with EvLrStep epoch => Some epoch | _ => None end) tr.

End EpochObservers.

Definition is_shuffle {R : Type} (e : event R) : bool :=
  match e with EvShuffle _ _ => true | _ => false end.

(** If the event is the drawing of shuffle indices, the two index lists are
    a permutation of the positions of the batch and its inverse. *)
Definition shuffle_event_ok {R : Type} (e : event R) : Prop :=
  match e with
  | EvShuffle shuffle_idx reverse_idx =>
      inverse_pair (length shuffle_idx) shuffle_idx reverse_idx
  | _ => True
  end.

(** An encoder that treats the rows of a batch independently of their
    order: reordering the batch reorders the embeddings the same way. *)
Definition order_equivariant {R : Type} (W : World R) : Prop :=
  forall theta (xs ys : list (Img W)) (idx : list nat),
    index_select xs idx = Ok ys ->
    index_select (forward W theta xs) idx = Ok (forward W theta ys).

(** ** Evaluation: test (lines 69-94) *)

(** What can go wrong in [test]: torch's RuntimeError (an empty list of
    tensors, a [view] that cannot be inferred), or one of the exceptions of
    the training loop. *)
Inductive eval_exn : Type :=
| RuntimeError
| Python (e : exn).

Inductive eval_result (A : Type) : Type :=
| Done (a : A)
| Failed (e : eval_exn).

Arguments Done {A} a.
Arguments Failed {A} e.

(** What [test] takes from torch and from the network: the forward pass in
    evaluation mode, [argsort(dim=-1, descending=True)] of one row, and
    [torch.histc] of one row of labels with the given number of bins. *)
Record Evaluator (R : Type) (W : World R) : Type := {
  forward_eval : list R -> list (Img W) -> list (list R);
  argsort_descending : list R -> list nat;
  histc : list R -> nat -> list R
}.

Arguments forward_eval {R W} _ _ _.
Arguments argsort_descending {R W} _ _.
Arguments histc {R W} _ _ _.

(** Their contracts: one embedding per image, the indices of a row in some
    order, one count per bin. *)
Class EvaluatorOk {R : Type} {W : World R} (E : Evaluator R W) : Prop := {
  forward_eval_length : forall theta xs, length (forward_eval E theta xs) = length xs;
  argsort_permutation : forall row, argsort_descending E row ≡ₚ seq 0 (length row);
  histc_length : forall row bins, length (histc E row bins) = bins
}.

(** The loader over the labelled reference set, with the attributes of its
    data set that [test] reads: [dataset.targets] and the number of
    [dataset.classes]. *)
Record reference_loader {R : Type} (W : World R) : Type := {
  reference_batches : list (list (Img W));
  dataset_targets : list nat;
  dataset_classes : nat
}.

Arguments reference_batches {R W} _.
Arguments dataset_targets {R W} _.
Arguments dataset_classes {R W} _.

Section Evaluation.
Context {R : Type} `{Arith R}.
Variable W : World R.
Variable E : Evaluator R W.

Definition eval_bind {A B : Type} (r : eval_result A) (f : A -> eval_result B)
  : eval_result B :=
  match r with
  | Done a => f a
  | Failed e => Failed e
  end.

Definition of_result {A : Type} (r : result A) : eval_result A :=
  match r with
  | Ok a => Done a
  | Raise e => Failed (Python e)
  end.

(** [torch.cat] of a list of batches of rows; torch refuses the empty
    list. *)
Definition torch_cat {A : Type} (tensors : list (list A)) : eval_result (list A) :=
  match tensors with
  | [] => Failed RuntimeError
  | _ :: _ => Done (concat tensors)
  end.

(** [flat.view(B, -1)]: [B] rows of equal length; torch cannot infer the
    row length when there are no rows, nor split unevenly. *)
Definition view_rows {A : Type} (B : nat) (flat : list A) : eval_result (list (list A)) :=
  if decide (B = 0) then Failed RuntimeError
  else if decide (length flat mod B = 0)
       then Done (map (fun i => take (length flat / B) (drop (i * (length flat / B)) flat))
                      (seq 0 B))
       else Failed RuntimeError.

(** Python's [total / n_data * 100] with an integer count. *)
Definition percent (total n : nat) : eval_result R :=
  if decide (n = 0) then Failed (Python ZeroDivisionError)
  else Done (r_mul (r_div (r_of_nat total) (r_of_nat n)) (r_of_nat 100)).

(** [torch.sum((pred_labels[:, :k] == target.unsqueeze(dim=-1)).any(dim=-1).float())]:
    the number of rows whose target is among the first [k] predictions. *)
Definition top_hits (k : nat) (pred_labels : list (list nat)) (target : list nat) : nat :=
  sum_list (zip_with (fun row tgt => Nat.b2n (existsb (Nat.eqb tgt) (take k row)))
                     pred_labels target).

(** The running totals of [test]: [total_top1], [total_top5], [n_data]. *)
Record totals : Type := Totals {
  total_top1 : nat;
  total_top5 : nat;
  seen : nat
}.

(** One iteration of the loop over the test loader (lines 78-92). *)
Definition test_step (features : nat) (theta : list R) (memory_bank : tensor2 R)
    (memory_bank_labels : list nat) (classes : nat) (acc : totals)
    (batch : list (Img W * nat)) : eval_result totals :=
  let data := map fst batch in
  let target := map snd batch in
  let y := forward_eval E theta data in
  let n_data := seen acc + length data in
  let sim := mm (tensor_of_rows features y) memory_bank in
  let k := cols2 memory_bank `min` 200 in
  let sim_index :=
    map (fun i => take k (argsort_descending E (row_of sim i))) (seq 0 (rows2 sim)) in
  eval_bind (of_result (index_select memory_bank_labels (concat sim_index)))
    (fun selected =>
  eval_bind (view_rows (length data) selected)
    (fun sim_labels =>
  let pred_labels :=
    map (fun sim_label =>
           argsort_descending E (histc E (map r_of_nat sim_label) classes))
        sim_labels in
  let top1 := total_top1 acc + top_hits 1 pred_labels target in
  let top5 := total_top5 acc + top_hits 5 pred_labels target in
  eval_bind (percent top1 n_data)
    (fun _ =>
  eval_bind (percent top5 n_data)
    (fun _ =>
  Done (Totals top1 top5 n_data))))).

Fixpoint test_loop (features : nat) (theta : list R) (memory_bank : tensor2 R)
    (memory_bank_labels : list nat) (classes : nat) (acc : totals)
    (test_loader : list (list (Img W * nat))) : eval_result totals :=
  match test_loader with
  | [] => Done acc
  | batch :: rest =>
      eval_bind (test_step features theta memory_bank memory_bank_labels classes acc batch)
        (fun acc' =>
           test_loop features theta memory_bank memory_bank_labels classes acc' rest)
  end.

(** [test(model, train_loader, test_loader, epoch)] for a model with the
    given parameters and embedding dimension; the epoch is only displayed. *)
Definition test (features : nat) (theta : list R) (train_loader : reference_loader W)
    (test_loader : list (list (Img W * nat))) : eval_result (R * R) :=
  let memory_bank := map (forward_eval E theta) (reference_batches train_loader) in
  eval_bind (torch_cat memory_bank)
    (fun bank_rows =>
  let memory_bank := t (tensor_of_rows features bank_rows) in
  let memory_bank_labels := dataset_targets train_loader in
  eval_bind (test_loop features theta memory_bank memory_bank_labels
                       (dataset_classes train_loader) (Totals 0 0 0) test_loader)
    (fun acc =>
  eval_bind (percent (total_top1 acc) (seen acc))
    (fun acc1 =>
  eval_bind (percent (total_top5 acc) (seen acc))
    (fun acc5 =>
  Done (acc1, acc5))))).

End Evaluation.

(** A toy evaluator: the encoder of the toy world, the identity order, and a
    histogram that counts nothing. *)
Definition toy_evaluator (R : Type) `{Arith R} : Evaluator R (toy_world R) :=
  Build_Evaluator R (toy_world R)
    (fun (theta : list R) (xs : list nat) =>
       map (fun x => map (fun w => r_mul w (r_of_nat x)) theta) xs)
    (fun row => seq 0 (length row))
    (fun _ bins => replicate bins r_zero).

(** A reference set of three labelled images in two batches. *)
Definition toy_reference : reference_loader (toy_world sym) :=
  Build_reference_loader sym (toy_world sym) [[1; 2]; [3]] [0; 1; 0] 2.

(** * Properties *)

(** ** Helper lemmas: indexing *)

Lemma index_select_ok {A : Type} (x : list A) (idx : list nat) :
  Forall (fun i => i < length x) idx ->
  exists rows,
    index_select x idx = Ok rows /\
    length rows = length idx /\
    forall j i, idx !! j = Some i -> rows !! j = x !! i.
Proof.
  induction idx as [|i idx IH]; intros Hall.
  - exists []. simpl. split; [done|]. split; [done|]. intros j i Hj. done.
  - apply Forall_cons_1 in Hall as [Hi Hall].
    destruct (IH Hall) as (rows & Hsel & Hlen & Hrows).
    destruct (lookup_lt_is_Some_2 x i Hi) as [row Hrow].
    exists (row :: rows). simpl. rewrite Hrow, Hsel.
    split; [done|]. split; [simpl; lia|].
    intros [|j] i' Hj; simpl in *.
    + by inversion Hj; subst.
    + by apply Hrows.
Qed.

Lemma index_copy_loop_ok {A : Type} (index : list nat) :
  forall (source self : list A),
    length index = length source ->
    Forall (fun i => i < length self) index ->
    NoDup index ->
    exists r,
      index_copy_loop self index source = Ok r /\
      length r = length self /\
      (forall j i v, index !! j = Some i -> source !! j = Some v -> r !! i = Some v) /\
      (forall i, i ∉ index -> r !! i = self !! i).
Proof.
  induction index as [|i index IH]; intros source self Hlen Hall Hnd.
  - destruct source; [|done]. exists self. simpl.
    split; [done|]. split; [done|]. split; [|done].
    intros j i v Hj. done.
  - destruct source as [|v source]; [done|].
    apply Forall_cons_1 in Hall as [Hi Hall].
    apply NoDup_cons in Hnd as [Hnotin Hnd].
    simpl in Hlen.
    destruct (IH source (<[i := v]> self)) as (r & Hr & Hrlen & Hset & Hkeep).
    + lia.
    + rewrite length_insert. done.
    + done.
    + exists r. simpl. rewrite decide_True by done.
      split; [done|]. split; [by rewrite Hrlen, length_insert|]. split.
      * intros [|j] i' v' Hj Hv; simpl in *.
        -- inversion Hj; inversion Hv; subst.
           rewrite Hkeep by done. by apply list_lookup_insert_eq.
        -- by eapply Hset.
      * intros i' Hi'. apply not_elem_of_cons in Hi' as [Hne Hi'].
        rewrite Hkeep by done. by apply list_lookup_insert_ne.
Qed.

(** ** Helper lemmas: the shuffle indices *)

Lemma permutation_seq_bounds (N : nat) (p : list nat) :
  p ≡ₚ seq 0 N ->
  length p = N /\ NoDup p /\ Forall (fun i => i < N) p.
Proof.
  intros Hp. split; [|split].
  - rewrite Hp. apply length_seq.
  - rewrite Hp. apply NoDup_seq.
  - apply Forall_forall. intros i Hi. rewrite Hp in Hi.
    apply elem_of_seq in Hi. lia.
Qed.

Lemma inverse_pair_reverse (N : nat) (shuffle reverse : list nat) :
  inverse_pair N shuffle reverse ->
  forall i, i < N -> exists j, reverse !! i = Some j /\ shuffle !! j = Some i /\ j < N.
Proof.
  intros (Hp & Hlen & Hinv) i Hi.
  assert (i ∈ shuffle) as Hin.
  { rewrite Hp. apply elem_of_seq. lia. }
  apply list_elem_of_lookup in Hin as [j Hj].
  exists j. split; [by apply Hinv|]. split; [done|].
  apply lookup_lt_Some in Hj.
  destruct (permutation_seq_bounds N shuffle Hp) as (Hl & _). lia.
Qed.

Lemma inverse_pair_round_trip {A : Type} (N : nat) (shuffle reverse : list nat)
    (batch : list A) :
  inverse_pair N shuffle reverse ->
  length batch = N ->
  exists shuffled,
    index_select batch shuffle = Ok shuffled /\
    length shuffled = N /\
    index_select shuffled reverse = Ok batch.
Proof.
  intros Hpair Hbatch.
  pose proof Hpair as (Hp & Hlen & Hinv).
  destruct (permutation_seq_bounds N shuffle Hp) as (Hl & Hnd & Hlt).
  destruct (index_select_ok batch shuffle) as (shuffled & Hsel & Hslen & Hrows).
  { by rewrite Hbatch. }
  exists shuffled. split; [done|]. split; [lia|].
  destruct (index_select_ok shuffled reverse) as (back & Hsel' & Hblen & Hrows').
  { apply Forall_forall. intros j Hj.
    apply list_elem_of_lookup in Hj as [i Hi].
    assert (i < N) as HiN by (apply lookup_lt_Some in Hi; lia).
    destruct (inverse_pair_reverse N shuffle reverse Hpair i HiN) as (j' & Hj' & _ & Hlt').
    rewrite Hi in Hj'. inversion Hj'; subst. lia. }
  rewrite Hsel'. f_equal.
  apply list_eq. intros i.
  destruct (decide (i < N)) as [HiN|HiN].
  - destruct (inverse_pair_reverse N shuffle reverse Hpair i HiN) as (j & Hj & Hji & _).
    rewrite (Hrows' i j Hj). by apply Hrows.
  - rewrite !lookup_ge_None_2 by lia. done.
Qed.

Section ShuffleLemmas.
Context {R : Type} (W : World R).
Hypothesis randperm_ok : forall g n, (randperm W g n).1 ≡ₚ seq 0 n.

Lemma get_shuffle_idx_ok (N : nat) (s : state W) :
  exists reverse,
    get_shuffle_idx W N s =
      (Ok ((randperm W (rng W s) N).1, reverse),
       State W (model_q W s) (model_k W s) (optimizer W s)
             (randperm W (rng W s) N).2 (trace W s)) /\
    inverse_pair N (randperm W (rng W s) N).1 reverse.
Proof.
  pose proof (randperm_ok (rng W s) N) as Hp.
  destruct (permutation_seq_bounds N _ Hp) as (Hl & Hnd & Hlt).
  destruct (index_copy_loop_ok (randperm W (rng W s) N).1 (seq 0 N) (replicate N 0))
    as (r & Hr & Hrlen & Hset & _).
  - by rewrite length_seq.
  - by rewrite length_replicate.
  - done.
  - exists r. split.
    + unfold get_shuffle_idx, bind, torch_randperm, lift, ret, index_copy_.
      destruct (randperm W (rng W s) N) as [p g]. simpl in *. by rewrite Hr.
    + split; [done|]. split; [by rewrite Hrlen, length_replicate|].
      intros j i Hj. apply (Hset j i j Hj).
      apply lookup_seq. split; [done|].
      apply lookup_lt_Some in Hj. lia.
Qed.

End ShuffleLemmas.

(** ** Helper lemmas: one step of the loop *)

Section StepLemmas.
Context {R : Type} `{Arith R, Transc R} (W : World R) `{!WorldOk W}.
Variable args : Args.
Variable beta_default : R.

Lemma step_shuffle_inverse (s : state W) (N : nat) :
  inverse_pair N (step_shuffle W (rng W s) N) (step_reverse W (rng W s) N).
Proof.
  destruct (get_shuffle_idx_ok W randperm_permutation N s) as (r & Heq & Hinv).
  unfold step_reverse, step_shuffle.
  unfold get_shuffle_idx, bind, torch_randperm, lift, ret in Heq.
  destruct (randperm W (rng W s) N) as [p g]. simpl in *.
  destruct (index_copy_ (replicate N 0) p (seq 0 N)) as [r'|e]; [|done].
  simpl. by inversion Heq; subst.
Qed.

Lemma get_shuffle_idx_eq (s : state W) (N : nat) :
  get_shuffle_idx W N s =
    (Ok (step_shuffle W (rng W s) N, step_reverse W (rng W s) N),
     State W (model_q W s) (model_k W s) (optimizer W s)
           (randperm W (rng W s) N).2 (trace W s)).
Proof.
  destruct (get_shuffle_idx_ok W randperm_permutation N s) as (r & Heq & Hinv).
  rewrite Heq. unfold step_reverse, step_shuffle.
  unfold get_shuffle_idx, bind, torch_randperm, lift, ret in Heq.
  destruct (randperm W (rng W s) N) as [p g]. simpl in *.
  destruct (index_copy_ (replicate N 0) p (seq 0 N)) as [r'|e]; [|done].
  simpl. by inversion Heq; subst.
Qed.

(** The two indexings of a step do not raise, and the key batch has one row
    per image. *)
Lemma step_k_ok (s : state W) (data : list (Img W)) :
  let N := length data in
  exists x_k,
    index_select data (step_shuffle W (rng W s) N) = Ok x_k /\
    index_select (forward W (model_k W s) x_k) (step_reverse W (rng W s) N)
      = Ok (step_k W s data) /\
    length (step_k W s data) = N.
Proof.
  intros N.
  pose proof (step_shuffle_inverse s N) as Hpair.
  destruct (inverse_pair_round_trip N _ _ data Hpair eq_refl)
    as (x_k & Hsel & Hlen & _).
  exists x_k. split; [done|].
  pose proof Hpair as (Hp & Hrlen & _).
  destruct (index_select_ok (forward W (model_k W s) x_k)
              (step_reverse W (rng W s) N))
    as (k & Hk & Hklen & _).
  { rewrite forward_length, Hlen.
    apply Forall_forall. intros j Hj.
    apply list_elem_of_lookup in Hj as [i Hi].
    assert (i < N) as HiN by (apply lookup_lt_Some in Hi; lia).
    destruct (inverse_pair_reverse N _ _ Hpair i HiN) as (j' & Hj' & _ & Hlt).
    rewrite Hi in Hj'. by inversion Hj'; subst. }
  unfold step_k. fold N. rewrite Hsel. simpl. rewrite Hk. simpl.
  split; [done|]. lia.
Qed.

Lemma train_step_eq (temp : R) (loc : locals R) (data : list (Img W)) (s : state W) :
  (step_ready args loc = true -> n_data loc + length data <> 0) ->
  train_step W args beta_default temp loc data s =
    (Ok (step_locals W args temp s loc data),
     step_state W args beta_default temp s loc data).
Proof.
  intros Hpos.
  destruct (step_k_ok s data) as (x_k & Hsel & Hk & Hlen).
  unfold train_step, step_locals, step_state, step_events, step_ready in *.
  unfold bind at 1. unfold emit at 1. simpl.
  unfold bind at 1. unfold call_model_q at 1. simpl.
  unfold bind at 1. unfold emit at 1. simpl.
  unfold bind at 1. rewrite get_shuffle_idx_eq. simpl.
  unfold bind at 1. unfold emit at 1. simpl.
  unfold bind at 1. unfold lift at 1. rewrite Hsel.
  unfold bind at 1. unfold call_model_k at 1. simpl.
  unfold bind at 1. unfold emit at 1. simpl.
  unfold bind at 1. unfold lift at 1. rewrite Hk.
  unfold is_ready in *.
  destruct (Z.of_nat (length (queue loc)) >=? dictionary_size args)%Z eqn:Hready.
  - unfold bind, emit, optimizer_zero_grad, loss_backward, optimizer_do_step,
      utils_momentum_update, py_div, ret, lift. simpl.
    unfold step_gradient.
    destruct (optimizer_step W _ _) as [o theta_q] eqn:Hstep. simpl.
    rewrite decide_False by (apply Hpos; done). simpl.
    unfold ready_events, step_loss, contrastive_loss, logits_of, step_q, enqueue_evict.
    rewrite <- !app_assoc. simpl. done.
  - unfold bind, emit, ret. simpl.
    unfold enqueue_evict. rewrite <- !app_assoc. simpl. done.
Qed.

End StepLemmas.

(** ** Helper lemmas: traces *)

Section TraceLemmas.
Context {R : Type}.
Implicit Types (p : event R -> bool) (tr : list (event R)).

Lemma occurs_app p tr1 tr2 : occurs p (tr1 ++ tr2) = occurs p tr1 || occurs p tr2.
Proof. unfold occurs. apply existsb_app. Qed.

Lemma count_app p tr1 tr2 : count p (tr1 ++ tr2) = count p tr1 + count p tr2.
Proof. unfold count. by rewrite List.filter_app, length_app. Qed.

Lemma step_queues_app tr1 tr2 :
  step_queues (tr1 ++ tr2) = step_queues tr1 ++ @step_queues R tr2.
Proof. unfold step_queues. apply omap_app. Qed.

Lemma step_keys_app tr1 tr2 :
  step_keys (tr1 ++ tr2) = step_keys tr1 ++ @step_keys R tr2.
Proof. unfold step_keys. apply omap_app. Qed.

End TraceLemmas.

(** ** Helper lemmas: a pass over the loader *)

Section LoopLemmas.
Context {R : Type} `{Arith R, Transc R} (W : World R) `{!WorldOk W}.
Variable args : Args.
Variable beta_default : R.

Lemma step_state_trace temp (s : state W) loc data :
  trace W (step_state W args beta_default temp s loc data)
  = trace W s ++ step_events W args beta_default temp s loc data.
Proof. unfold step_state. by destruct (step_ready args loc). Qed.

Lemma loop_state_trace temp train_loader : forall (s : state W) loc,
  trace W (loop_state W args beta_default temp s loc train_loader)
  = trace W s ++ loop_events W args beta_default temp s loc train_loader.
Proof.
  induction train_loader as [|data rest IH]; intros s loc;
    cbn [loop_state loop_events].
  - by rewrite app_nil_r.
  - by rewrite IH, step_state_trace, <- app_assoc.
Qed.

Lemma loader_ok_defined temp train_loader : forall (s : state W) loc,
  loader_ok W train_loader -> loop_defined W args beta_default temp s loc train_loader.
Proof.
  induction train_loader as [|data rest IH]; intros s loc Hok; simpl; [done|].
  apply Forall_cons in Hok as [Hdata Hrest]. split.
  - intros _. destruct data; [done|]. simpl. lia.
  - by apply IH.
Qed.

Lemma train_loop_eq temp train_loader : forall (s : state W) loc,
  loop_defined W args beta_default temp s loc train_loader ->
  train_loop W args beta_default temp loc train_loader s =
    (Ok (loop_locals W args beta_default temp s loc train_loader),
     loop_state W args beta_default temp s loc train_loader).
Proof.
  induction train_loader as [|data rest IH]; intros s loc Hdef; simpl; [done|].
  destruct Hdef as [Hpos Hdef].
  unfold bind. rewrite (train_step_eq W args beta_default temp loc data s Hpos).
  by apply IH.
Qed.

Lemma events_of_train_step temp (s : state W) loc data :
  (step_ready args loc = true -> n_data loc + length data <> 0) ->
  events_of W (train_step W args beta_default temp loc data) s
  = step_events W args beta_default temp s loc data.
Proof.
  intros Hpos. unfold events_of.
  rewrite (train_step_eq W args beta_default temp loc data s Hpos). simpl.
  rewrite step_state_trace. by rewrite drop_app_length.
Qed.

Lemma events_of_train_loop temp (s : state W) loc train_loader :
  loop_defined W args beta_default temp s loc train_loader ->
  events_of W (train_loop W args beta_default temp loc train_loader) s
  = loop_events W args beta_default temp s loc train_loader.
Proof.
  intros Hdef. unfold events_of.
  rewrite (train_loop_eq temp train_loader s loc Hdef). simpl.
  rewrite loop_state_trace. by rewrite drop_app_length.
Qed.

Lemma step_k_length (s : state W) data : length (step_k W s data) = length data.
Proof. by destruct (step_k_ok W s data) as (x_k & _ & _ & Hlen). Qed.

End LoopLemmas.

(** ** The concrete instances meet the contracts *)

#[export] Instance toy_world_ok (R : Type) `{Arith R} : WorldOk (toy_world R).
Proof.
  split.
  - intros g n. simpl. symmetry. apply Permutation_rev.
  - intros theta xs. simpl. apply length_map.
Qed.

#[export] Instance Z_exact : ExactArith Z.
Proof. split; intros x; simpl; lia. Qed.

(** ** The dictionary *)

Section DictionaryLemmas.
Context {A : Type}.
Implicit Types (data queue k : list A) (batches : list (list A)).

Lemma dequeue_data_drop data (K : Z) :
  dequeue_data data K = drop (length data - Z.to_nat K) data.
Proof.
  induction data as [|x rest IH]; [done|].
  cbn [dequeue_data].
  destruct (Z.of_nat (length (x :: rest)) >? K)%Z eqn:Hgt.
  - apply Z.gtb_lt in Hgt. rewrite IH. simpl length in *.
    replace (S (length rest) - Z.to_nat K) with (S (length rest - Z.to_nat K)) by lia.
    done.
  - rewrite Z.gtb_ltb, Z.ltb_ge in Hgt.
    simpl length in *.
    replace (S (length rest) - Z.to_nat K) with 0 by lia. done.
Qed.

Lemma enqueue_evict_most_recent (capacity : Z) queue k :
  enqueue_evict capacity queue k = most_recent (Z.to_nat capacity) (queue ++ k).
Proof. unfold enqueue_evict, queue_data, most_recent. apply dequeue_data_drop. Qed.

Lemma most_recent_length (n : nat) (l : list A) :
  length (most_recent n l) = n `min` length l.
Proof. unfold most_recent. rewrite length_drop. lia. Qed.

Lemma most_recent_app (n : nat) (l k : list A) :
  most_recent n (most_recent n l ++ k) = most_recent n (l ++ k).
Proof.
  unfold most_recent at 1 3.
  rewrite !length_app, most_recent_length. unfold most_recent.
  destruct (decide (length l <= n)) as [Hle|Hgt].
  - replace (length l - n) with 0 by lia. rewrite drop_0.
    by replace (n `min` length l) with (length l) by lia.
  - replace (n `min` length l) with n by lia.
    destruct (decide (length k <= n)) as [Hk|Hk].
    + rewrite !drop_app_le by (rewrite ?length_drop; lia).
      rewrite drop_drop. f_equal. f_equal. lia.
    + rewrite !drop_app_ge by (rewrite ?length_drop; lia).
      rewrite length_drop. f_equal. lia.
Qed.

Lemma dictionary_run_cons (capacity : Z) queue k batches :
  dictionary_run capacity queue (k :: batches)
  = most_recent (Z.to_nat capacity) (queue ++ concat (k :: batches)).
Proof.
  revert queue k. induction batches as [|k' batches IH]; intros queue k.
  - simpl. rewrite app_nil_r. apply enqueue_evict_most_recent.
  - change (dictionary_run capacity queue (k :: k' :: batches))
      with (dictionary_run capacity (enqueue_evict capacity queue k) (k' :: batches)).
    rewrite IH, enqueue_evict_most_recent, most_recent_app.
    simpl. by rewrite <- app_assoc.
Qed.

Lemma enqueue_evict_length (capacity : Z) queue k :
  length (enqueue_evict capacity queue k)
  = Z.to_nat capacity `min` (length queue + length k).
Proof. by rewrite enqueue_evict_most_recent, most_recent_length, length_app. Qed.

End DictionaryLemmas.

(** C2. When the batches enqueued into an empty dictionary hold more vectors
    in total than the capacity, enqueue-then-evict leaves a dictionary whose
    length is exactly the capacity, and the vectors enqueued so far, in the
    order they were enqueued, are the evicted ones followed by the retained
    ones: the retained entries are the most recent, in their original order,
    and the oldest were removed from the front. *)
Theorem dictionary_keeps_most_recent {A : Type} (capacity : Z) (batches : list (list A)) :
  (0 <= capacity)%Z ->
  (Z.of_nat (n_samples batches) > capacity)%Z ->
  Z.of_nat (length (dictionary_run capacity [] batches)) = capacity /\
  dictionary_run capacity [] batches = most_recent (Z.to_nat capacity) (concat batches) /\
  exists evicted,
    concat batches = evicted ++ dictionary_run capacity [] batches /\
    length evicted = n_samples batches - Z.to_nat capacity.
Proof.
  intros Hcap Htotal. unfold n_samples in *.
  destruct batches as [|k batches].
  { simpl in Htotal. lia. }
  rewrite dictionary_run_cons. rewrite app_nil_l.
  split; [|split; [done|]].
  - rewrite most_recent_length. lia.
  - exists (take (length (concat (k :: batches)) - Z.to_nat capacity) (concat (k :: batches))).
    unfold most_recent. rewrite take_drop. split; [done|].
    rewrite length_take. lia.
Qed.

(** Three batches of two vectors into a dictionary of capacity four. *)
Lemma dictionary_keeps_most_recent_witness :
  Z.of_nat (length (dictionary_run 4 [] [[1; 2]; [3; 4]; [5; 6]])) = 4%Z /\
  dictionary_run 4 [] [[1; 2]; [3; 4]; [5; 6]] = most_recent 4 [1; 2; 3; 4; 5; 6] /\
  exists evicted,
    [1; 2; 3; 4; 5; 6] = evicted ++ dictionary_run 4 [] [[1; 2]; [3; 4]; [5; 6]] /\
    length evicted = 2.
Proof.
  apply (dictionary_keeps_most_recent 4 [[1; 2]; [3; 4]; [5; 6]]).
  - lia.
  - vm_compute. reflexivity.
Defined.

(** ** The shuffle indices *)

(** C3. For every batch size [N], provided [torch.randperm] returns a
    permutation of 0..N-1, [get_shuffle_idx] returns a pair (shuffle,
    reverse) with [reverse[shuffle[i]] = i] for every [i < N], and reordering
    a batch of [N] rows by [shuffle] and the result by [reverse] gives the
    batch back. *)
Theorem get_shuffle_idx_inverse {R : Type} (W : World R) (N : nat) (s : state W) :
  (forall g n, (randperm W g n).1 ≡ₚ seq 0 n) ->
  exists shuffle reverse s',
    get_shuffle_idx W N s = (Ok (shuffle, reverse), s') /\
    (forall i, i < N ->
       exists si, shuffle !! i = Some si /\ reverse !! si = Some i) /\
    (forall (A : Type) (batch : list A), length batch = N ->
       exists shuffled,
         index_select batch shuffle = Ok shuffled /\
         index_select shuffled reverse = Ok batch).
Proof.
  intros Hperm.
  destruct (get_shuffle_idx_ok W Hperm N s) as (reverse & Heq & Hpair).
  eexists _, reverse, _. split; [exact Heq|]. split.
  - intros i Hi. pose proof Hpair as (Hp & _ & Hinv).
    destruct (permutation_seq_bounds N _ Hp) as (Hlen & _).
    destruct (lookup_lt_is_Some_2 (randperm W (rng W s) N).1 i) as [si Hsi]; [lia|].
    exists si. split; [done|]. by apply Hinv.
  - intros A batch Hlen.
    destruct (inverse_pair_round_trip N _ _ batch Hpair Hlen) as (shuffled & Hs & _ & Hb).
    by exists shuffled.
Qed.

Lemma get_shuffle_idx_inverse_witness :
  exists shuffle reverse s',
    get_shuffle_idx (toy_world sym) 3 toy_state = (Ok (shuffle, reverse), s') /\
    (forall i, i < 3 ->
       exists si, shuffle !! i = Some si /\ reverse !! si = Some i) /\
    (forall (A : Type) (batch : list A), length batch = 3 ->
       exists shuffled,
         index_select batch shuffle = Ok shuffled /\
         index_select shuffled reverse = Ok batch).
Proof.
  apply (get_shuffle_idx_inverse (toy_world sym) 3 toy_state).
  intros g n. simpl. symmetry. apply Permutation_rev.
Defined.

(** ** One training step *)

Section StepClaims.
Context {R : Type} `{Arith R, Transc R} (W : World R) `{!WorldOk W}.
Variable args : Args.
Variable beta_default : R.

Lemma step_events_kinds temp (s : state W) loc data :
  let evs := step_events W args beta_default temp s loc data in
  occurs is_loss evs = step_ready args loc /\
  occurs is_optimizer_step evs = step_ready args loc /\
  occurs is_momentum evs = step_ready args loc /\
  count is_loss evs = (if step_ready args loc then 1 else 0) /\
  count is_step evs = 1 /\
  count is_enqueue evs = 1 /\
  count is_evict evs = 1 /\
  step_keys evs = [step_k W s data] /\
  step_queues evs = [queue loc].
Proof.
  unfold step_events. destruct (step_ready args loc); cbn; done.
Qed.

End StepClaims.

(** C1. In every training step the contrastive loss is computed and the
    optimizer takes its gradient step exactly when the dictionary is ready
    (queue length at least the capacity); the momentum update occurs exactly
    in that branch too; the new key batch is enqueued and the dictionary
    evicted to capacity once in every step, ready or not.  A step that is not
    ready leaves both encoders, the optimizer and the running totals as they
    were. *)
Theorem train_step_gating {R : Type} `{Arith R, Transc R} (W : World R) `{!WorldOk W}
    (args : Args) (beta_default temp : R) (loc : locals R) (data : list (Img W))
    (s : state W) :
  data <> [] ->
  let ready := is_ready (length (queue loc)) (dictionary_size args) in
  let evs := events_of W (train_step W args beta_default temp loc data) s in
  exists loc' s' k,
    train_step W args beta_default temp loc data s = (Ok loc', s') /\
    trace W s' = trace W s ++ evs /\
    occurs is_loss evs = ready /\
    occurs is_optimizer_step evs = ready /\
    occurs is_momentum evs = ready /\
    count is_enqueue evs = 1 /\
    count is_evict evs = 1 /\
    step_keys evs = [k] /\
    queue loc' = dequeue_data (queue_data (queue loc) k) (dictionary_size args) /\
    if ready
    then
      (optimizer W s', model_q W s') =
        optimizer_step W
          (backward W (zero_grad W (optimizer W s)) (model_q W s) data k (queue loc) temp)
          (model_q W s) /\
      model_k W s' = momentum_update (model_q W s') (model_k W s) beta_default /\
      n_data loc' = n_data loc + length data
    else
      model_q W s' = model_q W s /\
      model_k W s' = model_k W s /\
      optimizer W s' = optimizer W s /\
      total_loss loc' = total_loss loc /\
      n_data loc' = n_data loc.
Proof.
  intros Hdata ready evs.
  assert (step_ready args loc = true -> n_data loc + length data <> 0) as Hpos.
  { intros _. destruct data; [done|]. simpl. lia. }
  exists (step_locals W args temp s loc data),
         (step_state W args beta_default temp s loc data),
         (step_k W s data).
  subst evs. rewrite (events_of_train_step W args beta_default temp s loc data Hpos).
  destruct (step_events_kinds W args beta_default temp s loc data)
    as (Hl & Ho & Hm & _ & _ & He & Hv & Hk & _).
  split; [by apply train_step_eq|].
  split; [apply step_state_trace|].
  do 6 (split; [done|]).
  unfold step_locals, step_state, step_gradient.
  change (step_ready args loc) with ready.
  destruct ready; simpl.
  - split; [done|]. split; [|done].
    by destruct (optimizer_step W _ _).
  - done.
Qed.

(** A step of the toy world on an empty dictionary of capacity two: it is not
    ready. *)
Lemma train_step_gating_witness :
  let evs :=
    events_of (toy_world sym)
      (train_step (toy_world sym) (toy_args 2 1) (SNat 1) temp_default
                  train_locals [5; 6]) toy_state in
  occurs is_loss evs = false /\ count is_enqueue evs = 1.
Proof.
  destruct (train_step_gating (toy_world sym) (toy_args 2 1) (SNat 1) temp_default
              train_locals [5; 6] toy_state)
    as (loc' & s' & k & _ & _ & Hloss & _ & _ & Henq & _).
  - discriminate.
  - split; [exact Hloss | exact Henq].
Defined.

(** C6. In every loss-producing step the momentum update of the key encoder
    comes after the optimizer's gradient step on the query encoder and never
    before it: the step has one gradient step and one momentum update, in
    that order, and the momentum update reads the query parameters that the
    gradient step produced. *)
Theorem momentum_after_gradient_step {R : Type} `{Arith R, Transc R} (W : World R)
    `{!WorldOk W} (args : Args) (beta_default temp : R) (loc : locals R)
    (data : list (Img W)) (s : state W) :
  data <> [] ->
  occurs is_loss (events_of W (train_step W args beta_default temp loc data) s) = true ->
  exists loc' s' before between after o,
    train_step W args beta_default temp loc data s = (Ok loc', s') /\
    events_of W (train_step W args beta_default temp loc data) s
      = before ++ [EvOptimizerStep] ++ between ++ [EvMomentum beta_default] ++ after /\
    occurs is_momentum (before ++ between ++ after) = false /\
    occurs is_optimizer_step (before ++ between ++ after) = false /\
    (optimizer W s', model_q W s') = optimizer_step W o (model_q W s) /\
    model_k W s' = momentum_update (model_q W s') (model_k W s) beta_default.
Proof.
  intros Hdata Hloss.
  assert (step_ready args loc = true -> n_data loc + length data <> 0) as Hpos.
  { intros _. destruct data; [done|]. simpl. lia. }
  rewrite (events_of_train_step W args beta_default temp s loc data Hpos) in Hloss |- *.
  destruct (step_events_kinds W args beta_default temp s loc data) as (Hl & _).
  rewrite Hl in Hloss. unfold step_ready in Hloss. rename Hloss into Hready.
  rewrite (train_step_eq W args beta_default temp loc data s Hpos).
  unfold step_events, step_state, ready_events.
  change (step_ready args loc)
    with (is_ready (length (queue loc)) (dictionary_size args)).
  rewrite Hready.
  eexists _, _,
    [EvStep (length data) (queue loc); EvForwardQ;
     EvShuffle (step_shuffle W (rng W s) (length data))
               (step_reverse W (rng W s) (length data));
     EvForwardK;
     EvLoss temp (length (queue loc)) (step_loss W args temp s loc data);
     EvZeroGrad; EvBackward],
    [],
    [EvEnqueue (step_k W s data); EvEvict (dictionary_size args)],
    (backward W (zero_grad W (optimizer W s)) (model_q W s) data (step_k W s data)
              (queue loc) temp).
  split; [reflexivity|]. split; [reflexivity|]. split; [reflexivity|].
  split; [reflexivity|].
  unfold step_gradient. simpl.
  split; [|reflexivity]. by destruct (optimizer_step W _ _).
Qed.

(** A step of the toy world with capacity zero, which is always ready. *)
Lemma momentum_after_gradient_step_witness :
  exists before between after,
    events_of (toy_world sym)
      (train_step (toy_world sym) (toy_args 0 1) (SNat 1) temp_default
                  train_locals [5; 6]) toy_state
      = before ++ [EvOptimizerStep] ++ between ++ [EvMomentum (SNat 1)] ++ after /\
    occurs is_momentum (before ++ between ++ after) = false.
Proof.
  destruct (momentum_after_gradient_step (toy_world sym) (toy_args 0 1) (SNat 1)
              temp_default train_locals [5; 6] toy_state)
    as (loc' & s' & before & between & after & o & _ & Hev & Hm & _).
  - discriminate.
  - reflexivity.
  - exists before, between, after. split; [exact Hev | exact Hm].
Defined.

(** ** The contrastive loss *)

Section LossLemmas.
Context {R : Type} `{Arith R, Transc R}.

Lemma fold_add_ext (f g : nat -> R) (l : list nat) : forall acc : R,
  (forall i, i ∈ l -> f i = g i) ->
  fold_left (fun a i => r_add a (f i)) l acc = fold_left (fun a i => r_add a (g i)) l acc.
Proof.
  induction l as [|x l IH]; intros acc Hext; simpl; [done|].
  rewrite (Hext x) by left. apply IH. intros i Hi. apply Hext. by right.
Qed.

Lemma r_sum_ext (n : nat) (f g : nat -> R) :
  (forall i, i < n -> f i = g i) -> r_sum n f = r_sum n g.
Proof.
  intros Hext. unfold r_sum. apply fold_add_ext.
  intros i Hi. apply Hext. apply elem_of_seq in Hi. lia.
Qed.

Lemma map_seq_nth {A B : Type} (g : A -> B) (d : A) (M : list A) :
  map (fun j => g (nth j M d)) (seq 0 (length M)) = map g M.
Proof.
  induction M as [|a M IH]; [done|].
  cbn [length]. rewrite <- cons_seq, <- seq_shift. cbn [map].
  f_equal. rewrite <- IH. rewrite map_map. done.
Qed.

Lemma nth_row_of (x : tensor2 R) (i j : nat) :
  j < cols2 x -> nth j (row_of x i) r_zero = at2 x i j.
Proof.
  intros Hj. unfold row_of.
  rewrite (nth_indep _ r_zero (at2 x i 0)) by (rewrite length_map, length_seq; lia).
  rewrite map_nth. by rewrite seq_nth.
Qed.

Lemma length_row_of (x : tensor2 R) (i : nat) : length (row_of x i) = cols2 x.
Proof. unfold row_of. by rewrite length_map, length_seq. Qed.

Lemma flat_index (i d D : nat) :
  d < D -> (i * D + d) / D = i /\ (i * D + d) mod D = d.
Proof.
  intros Hd. split.
  - symmetry. apply (Nat.div_unique _ _ _ d); lia.
  - symmetry. apply (Nat.mod_unique _ _ i); lia.
Qed.

Lemma labels_zero (n i : nat) : nth i (zeros_long n) 0 = 0.
Proof.
  unfold zeros_long. destruct (decide (i < n)) as [Hi|Hi].
  - apply nth_lookup_Some with (d := 0). by apply lookup_replicate_2.
  - apply nth_overflow. rewrite length_replicate. lia.
Qed.

Variable D : nat.
Variable temp : R.
Variables Q K M : list (list R).
Hypothesis K_aligned : length K = length Q.

(** The positive logit of example [i], as [bmm] over the two views computes
    it. *)
Lemma l_pos_at (i : nat) :
  i < length Q ->
  at3 (l_pos_of (length Q) (tensor_of_rows D Q) (tensor_of_rows D K)) i 0 0
  = dot D (nth i Q []) (nth i K []).
Proof.
  intros Hi. unfold l_pos_of, bmm, dot. cbn [at3 dim2 view3].
  unfold numel2. cbn [rows2 cols2 tensor_of_rows].
  rewrite K_aligned.
  assert (infer_dim (length Q * D) (length Q * 1) = D) as ->.
  { unfold infer_dim. rewrite Nat.mul_1_r, Nat.mul_comm. apply Nat.div_mul. lia. }
  apply r_sum_ext. intros d Hd.
  unfold flat2. cbn [at2 cols2].
  replace (i * (1 * D) + 0 * D + d) with (i * D + d) by lia.
  replace (i * (D * 1) + d * 1 + 0) with (i * D + d) by lia.
  cbn [cols2 tensor_of_rows].
  destruct (flat_index i d D Hd) as [-> ->]. done.
Qed.

Lemma logits_positive (i : nat) :
  i < length Q -> at2 (logits_of_rows D Q K M) i 0 = dot D (nth i Q []) (nth i K []).
Proof.
  intros Hi. unfold logits_of_rows, logits_of, cat_last. cbn [at2 cols2 view2].
  rewrite decide_True by lia.
  unfold flat3. cbn [dim1 dim2 l_pos_of bmm view3].
  rewrite Nat.mul_1_r, Nat.add_0_r, Nat.div_1_r, !Nat.mod_1_r.
  by apply l_pos_at.
Qed.

Lemma logits_negative (i j : nat) :
  at2 (logits_of_rows D Q K M) i (S j) = dot D (nth i Q []) (nth j M []).
Proof.
  unfold logits_of_rows, logits_of, cat_last. cbn [at2 cols2 view2].
  rewrite decide_False by lia.
  replace (S j - 1) with j by lia. done.
Qed.

Lemma logits_row (i : nat) :
  i < length Q ->
  row_of (div_scalar (logits_of_rows D Q K M) temp) i = spec_row D temp Q K M i.
Proof.
  intros Hi. unfold row_of, spec_row.
  change (cols2 (div_scalar (logits_of_rows D Q K M) temp)) with (S (length M)).
  rewrite <- cons_seq, <- seq_shift. cbn [map at2 div_scalar].
  rewrite (logits_positive i Hi). f_equal.
  rewrite !map_map.
  rewrite <- (map_seq_nth (fun m => r_div (dot D (nth i Q []) m) temp) []).
  apply map_ext. intros j. by rewrite logits_negative.
Qed.

Lemma contrastive_loss_spec :
  contrastive_loss (length Q) (tensor_of_rows D Q) (tensor_of_rows D K)
                   (tensor_of_rows D M) temp
  = spec_loss D temp Q K M.
Proof.
  unfold contrastive_loss, cross_entropy_loss, spec_loss.
  fold (logits_of_rows D Q K M).
  change (rows2 (div_scalar (logits_of_rows D Q K M) temp)) with (length Q).
  f_equal. apply r_sum_ext. intros i Hi.
  rewrite labels_zero. rewrite <- (logits_row i Hi).
  unfold cross_entropy_row, spec_row_loss.
  rewrite length_row_of.
  rewrite nth_row_of by (cbn; lia). f_equal. f_equal.
  apply r_sum_ext. intros j Hj. by rewrite nth_row_of.
Qed.

End LossLemmas.

(** C4. In every ready step with query batch [Q] (N rows of dimension D),
    aligned key batch [K] and dictionary [M] of length C, the logits handed
    to the cross entropy have N rows of length 1 + C; row [i] is
    [dot(Q[i],K[i])] followed by the products of [Q[i]] with every dictionary
    entry, every entry divided by the temperature before the cross entropy;
    the correct class of every example is 0; and the loss is the mean over
    the batch of the rows' cross entropies.  That loss, weighted by N, is
    what the step adds to the running total. *)
Theorem ready_step_loss {R : Type} `{Arith R, Transc R} (W : World R) `{!WorldOk W}
    (args : Args) (beta_default temp : R) (loc : locals R) (data : list (Img W))
    (s : state W) :
  data <> [] ->
  is_ready (length (queue loc)) (dictionary_size args) = true ->
  let N := length data in
  let D := features_dim args in
  let Q := forward W (model_q W s) data in
  let M := queue loc in
  let evs := events_of W (train_step W args beta_default temp loc data) s in
  exists loc' s' K loss,
    train_step W args beta_default temp loc data s = (Ok loc', s') /\
    length Q = N /\
    length K = N /\
    step_keys evs = [K] /\
    let logits :=
      div_scalar
        (logits_of N (tensor_of_rows D Q) (tensor_of_rows D K) (tensor_of_rows D M))
        temp in
    rows2 logits = N /\
    cols2 logits = 1 + length M /\
    (forall i, i < N ->
       row_of logits i
       = map (fun x => r_div x temp)
             (dot D (nth i Q []) (nth i K []) :: map (dot D (nth i Q [])) M)) /\
    (forall i, nth i (zeros_long N) 0 = 0) /\
    loss = cross_entropy_loss logits (zeros_long N) /\
    loss = spec_loss D temp Q K M /\
    EvLoss temp (length M) loss ∈ evs /\
    count is_loss evs = 1 /\
    total_loss loc' = r_add (total_loss loc) (r_mul loss (r_of_nat N)).
Proof.
  intros Hdata Hready N D Q M evs.
  assert (step_ready args loc = true -> n_data loc + length data <> 0) as Hpos.
  { intros _. destruct data; [done|]. simpl. lia. }
  assert (length Q = N) as HQ by apply forward_length.
  assert (length (step_k W s data) = length Q) as HK.
  { rewrite HQ. by apply step_k_length. }
  exists (step_locals W args temp s loc data),
         (step_state W args beta_default temp s loc data),
         (step_k W s data),
         (step_loss W args temp s loc data).
  subst evs. rewrite (events_of_train_step W args beta_default temp s loc data Hpos).
  destruct (step_events_kinds W args beta_default temp s loc data)
    as (_ & _ & _ & Hcount & _ & _ & _ & Hk & _).
  split; [by apply train_step_eq|].
  split; [done|]. split; [by rewrite HK|]. split; [done|].
  intros logits.
  split; [done|]. split; [done|]. split.
  { intros i Hi. subst logits N. rewrite <- HQ in Hi |- *.
    apply (logits_row D temp Q (step_k W s data) M HK i Hi). }
  split.
  { intros i. apply labels_zero. }
  split; [done|]. split.
  { unfold step_loss. fold Q D M. subst N. rewrite <- HQ.
    apply (contrastive_loss_spec D temp Q (step_k W s data) M HK). }
  unfold step_ready in Hcount.
  unfold step_events, step_locals, step_ready. rewrite Hready in *.
  split; [|done].
  unfold ready_events. fold M.
  apply list_elem_of_In. simpl. tauto.
Qed.

(** A ready step of the toy world: capacity one, one entry in the
    dictionary. *)
Lemma ready_step_loss_witness :
  let loc := Locals (SNat 0) 0 [[SNat 7; SNat 8]] in
  let evs :=
    events_of (toy_world sym)
      (train_step (toy_world sym) (toy_args 1 1) (SNat 1) temp_default loc [5; 6])
      toy_state in
  exists K loss,
    step_keys evs = [K] /\
    loss = spec_loss 2 temp_default
             (forward (toy_world sym) [SNat 1; SNat 2] [5; 6]) K [[SNat 7; SNat 8]] /\
    EvLoss temp_default 1 loss ∈ evs.
Proof.
  intros loc evs.
  destruct (ready_step_loss (toy_world sym) (toy_args 1 1) (SNat 1) temp_default
              loc [5; 6] toy_state)
    as (loc' & s' & K & loss & _ & _ & _ & Hk & _ & _ & _ & _ & _ & Hspec & Hin & _).
  - discriminate.
  - reflexivity.
  - exists K, loss. split; [exact Hk|]. split; [exact Hspec | exact Hin].
Defined.

(** ** One epoch *)

Section EpochLemmas.
Context {R : Type} `{Arith R, Transc R} (W : World R) `{!WorldOk W}.
Variable args : Args.
Variable beta_default : R.
Variable temp : R.

Lemma loop_locals_app pre post : forall (s : state W) loc,
  loop_locals W args beta_default temp s loc (pre ++ post)
  = loop_locals W args beta_default temp
      (loop_state W args beta_default temp s loc pre)
      (loop_locals W args beta_default temp s loc pre) post.
Proof. induction pre as [|d pre IH]; intros s loc; simpl; [done|]. apply IH. Qed.

Lemma loop_state_app pre post : forall (s : state W) loc,
  loop_state W args beta_default temp s loc (pre ++ post)
  = loop_state W args beta_default temp
      (loop_state W args beta_default temp s loc pre)
      (loop_locals W args beta_default temp s loc pre) post.
Proof. induction pre as [|d pre IH]; intros s loc; simpl; [done|]. apply IH. Qed.

Lemma loop_events_app pre post : forall (s : state W) loc,
  loop_events W args beta_default temp s loc (pre ++ post)
  = loop_events W args beta_default temp s loc pre
    ++ loop_events W args beta_default temp
         (loop_state W args beta_default temp s loc pre)
         (loop_locals W args beta_default temp s loc pre) post.
Proof.
  induction pre as [|d pre IH]; intros s loc; cbn [app loop_events loop_state loop_locals];
    [done|].
  by rewrite IH, <- app_assoc.
Qed.

Lemma step_locals_queue (s : state W) loc data :
  queue (step_locals W args temp s loc data)
  = enqueue_evict (dictionary_size args) (queue loc) (step_k W s data).
Proof. unfold step_locals. by destruct (step_ready args loc). Qed.

Lemma step_locals_not_ready (s : state W) loc data :
  step_ready args loc = false ->
  n_data (step_locals W args temp s loc data) = n_data loc /\
  total_loss (step_locals W args temp s loc data) = total_loss loc.
Proof. intros Hr. unfold step_locals. by rewrite Hr. Qed.

Lemma step_locals_ready (s : state W) loc data :
  step_ready args loc = true ->
  n_data (step_locals W args temp s loc data) = n_data loc + length data.
Proof. intros Hr. unfold step_locals. by rewrite Hr. Qed.

(** The dictionary never grows beyond a non-negative capacity. *)
Lemma step_locals_bounded (s : state W) loc data :
  (0 <= dictionary_size args)%Z ->
  (Z.of_nat (length (queue (step_locals W args temp s loc data)))
   <= dictionary_size args)%Z.
Proof.
  intros Hcap. rewrite step_locals_queue, enqueue_evict_length. lia.
Qed.

Lemma loop_locals_bounded train_loader : forall (s : state W) loc,
  (0 <= dictionary_size args)%Z ->
  (Z.of_nat (length (queue loc)) <= dictionary_size args)%Z ->
  (Z.of_nat (length (queue (loop_locals W args beta_default temp s loc train_loader)))
   <= dictionary_size args)%Z.
Proof.
  induction train_loader as [|d rest IH]; intros s loc Hcap Hq; simpl; [done|].
  apply IH; [done|]. by apply step_locals_bounded.
Qed.

(** Each step of a pass begins with the dictionary the previous one left. *)
Lemma loop_events_history train_loader : forall (s : state W) loc,
  let evs := loop_events W args beta_default temp s loc train_loader in
  step_queues evs = dictionary_history (dictionary_size args) (queue loc) (step_keys evs) /\
  length (step_keys evs) = length train_loader /\
  queue (loop_locals W args beta_default temp s loc train_loader)
  = dictionary_run (dictionary_size args) (queue loc) (step_keys evs).
Proof.
  induction train_loader as [|d rest IH]; intros s loc; cbv zeta; [done|].
  cbn [loop_events loop_locals].
  rewrite step_queues_app, step_keys_app.
  destruct (step_events_kinds W args beta_default temp s loc d)
    as (_ & _ & _ & _ & _ & _ & _ & Hk & Hq).
  rewrite Hk, Hq. cbn [app dictionary_history length].
  destruct (IH (step_state W args beta_default temp s loc d)
               (step_locals W args temp s loc d)) as (IH1 & IH2 & IH3).
  rewrite step_locals_queue in IH1, IH3.
  rewrite IH1, IH2, IH3. done.
Qed.

(** A pass none of whose steps is ready completes and leaves the running
    totals alone. *)
Lemma never_ready_loop train_loader : forall (s : state W) loc,
  never_ready W args beta_default temp loc train_loader s ->
  loop_defined W args beta_default temp s loc train_loader /\
  n_data (loop_locals W args beta_default temp s loc train_loader) = n_data loc /\
  occurs is_loss (loop_events W args beta_default temp s loc train_loader) = false.
Proof.
  induction train_loader as [|d rest IH]; intros s loc Hnever; [done|].
  assert (step_ready args loc = false) as Hr.
  { apply (Hnever [] d rest loc s); done. }
  assert (step_ready args loc = true -> n_data loc + length d <> 0) as Hpos.
  { rewrite Hr. discriminate. }
  destruct (IH (step_state W args beta_default temp s loc d)
               (step_locals W args temp s loc d)) as (IHd & IHn & IHl).
  { intros pre data post loc1 s1 Hsplit Hrun.
    apply (Hnever (d :: pre) data post loc1 s1).
    - by rewrite Hsplit.
    - cbn [train_loop]. unfold bind.
      by rewrite (train_step_eq W args beta_default temp loc d s Hpos). }
  cbn [loop_defined loop_locals loop_events].
  split; [done|]. split.
  - rewrite IHn. by apply step_locals_not_ready.
  - rewrite occurs_app, IHl.
    destruct (step_events_kinds W args beta_default temp s loc d) as (-> & _).
    by rewrite Hr.
Qed.

(** A loader that delivers no more samples than the dictionary still has
    room for never makes it ready. *)
Lemma room_never_ready pre : forall train_loader (s : state W) loc data post loc1 s1,
  loader_ok W train_loader ->
  (Z.of_nat (length (queue loc) + n_samples train_loader) <= dictionary_size args)%Z ->
  train_loader = pre ++ data :: post ->
  train_loop W args beta_default temp loc pre s = (Ok loc1, s1) ->
  is_ready (length (queue loc1)) (dictionary_size args) = false.
Proof.
  induction pre as [|d pre IH];
    intros train_loader s loc data post loc1 s1 Hok Hroom Hsplit Hrun.
  - simpl in Hrun. inversion Hrun; subst. clear Hrun.
    apply Forall_cons in Hok as [Hdata _].
    unfold n_samples in Hroom. simpl in Hroom. rewrite length_app in Hroom.
    destruct data; [done|]. simpl in Hroom.
    unfold is_ready. rewrite Z.geb_leb. apply Z.leb_gt. lia.
  - subst train_loader. apply Forall_cons in Hok as [Hd Hok].
    unfold n_samples in Hroom. simpl in Hroom. rewrite length_app in Hroom.
    assert (step_ready args loc = false) as Hr.
    { unfold step_ready, is_ready. destruct d; [done|]. simpl in Hroom.
      rewrite Z.geb_leb. apply Z.leb_gt. lia. }
    assert (step_ready args loc = true -> n_data loc + length d <> 0) as Hpos.
    { rewrite Hr. discriminate. }
    cbn [train_loop] in Hrun. unfold bind in Hrun.
    rewrite (train_step_eq W args beta_default temp loc d s Hpos) in Hrun.
    eapply (IH (pre ++ data :: post)); [exact Hok| |reflexivity|exact Hrun].
    rewrite step_locals_queue, enqueue_evict_length, step_k_length by done.
    unfold n_samples. lia.
Qed.

End EpochLemmas.

(** C9. If no step of an epoch begins with a ready dictionary, the loop
    completes with the examples-seen counter [n_data] still 0, and the mean
    loss that [train] returns is a division by zero: the call raises instead
    of returning a value.  That is the case, for example, whenever the
    capacity is at least the number of samples the loader delivers in the
    epoch. *)
Theorem train_never_ready_fails {R : Type} `{Arith R, Transc R} (W : World R)
    `{!WorldOk W} (args : Args) (beta_default temp : R)
    (train_loader : list (list (Img W))) (epoch : nat) (s : state W) :
  (never_ready W args beta_default temp train_locals train_loader s ->
   exists loc s',
     train_loop W args beta_default temp train_locals train_loader s = (Ok loc, s') /\
     n_data loc = 0 /\
     train W args beta_default train_loader epoch temp s = (Raise ZeroDivisionError, s')) /\
  (loader_ok W train_loader ->
   (Z.of_nat (n_samples train_loader) <= dictionary_size args)%Z ->
   never_ready W args beta_default temp train_locals train_loader s).
Proof.
  split.
  - intros Hnever.
    destruct (never_ready_loop W args beta_default temp train_loader s train_locals Hnever)
      as (Hdef & Hn & _).
    pose proof (train_loop_eq W args beta_default temp train_loader s train_locals Hdef)
      as Hloop.
    eexists _, _. split; [exact Hloop|]. split; [exact Hn|].
    unfold train, bind. rewrite Hloop.
    unfold py_div. rewrite Hn. simpl. done.
  - intros Hok Hroom pre data post loc1 s1 Hsplit Hrun.
    by apply (room_never_ready W args beta_default temp pre train_loader s train_locals
                data post loc1 s1).
Qed.

(** The toy world with a dictionary of capacity four and an epoch of three
    samples. *)
Lemma train_never_ready_fails_witness :
  (train (toy_world sym) (toy_args 4 1) (SNat 1) [[5; 6]; [7]] 1 temp_default toy_state).1
  = Raise ZeroDivisionError.
Proof.
  destruct (train_never_ready_fails (toy_world sym) (toy_args 4 1) (SNat 1) temp_default
              [[5; 6]; [7]] 1 toy_state) as [Hfail Hroom].
  destruct Hfail as (loc & s' & _ & _ & Htrain).
  - apply Hroom.
    + repeat constructor; discriminate.
    + vm_compute. discriminate.
  - rewrite Htrain. reflexivity.
Defined.

(** C10. Whether a step is loss-producing is decided by the length the
    dictionary has when the step begins, before the step's own enqueue.  So
    at every loss-producing step of an epoch the negative set has exactly
    capacity entries, and the first loss-producing step is the step right
    after the one whose enqueue first brought the dictionary from below
    capacity to capacity. *)
Theorem readiness_before_enqueue {R : Type} `{Arith R, Transc R} (W : World R)
    `{!WorldOk W} (args : Args) (beta_default temp : R)
    (pre : list (list (Img W))) (data : list (Img W)) (s : state W) :
  (0 <= dictionary_size args)%Z ->
  loader_ok W (pre ++ [data]) ->
  exists loc s1 loc' s2 K,
    train_loop W args beta_default temp train_locals pre s = (Ok loc, s1) /\
    train_step W args beta_default temp loc data s1 = (Ok loc', s2) /\
    train_loop W args beta_default temp train_locals (pre ++ [data]) s = (Ok loc', s2) /\
    let evs := events_of W (train_step W args beta_default temp loc data) s1 in
    step_queues evs = [queue loc] /\
    step_keys evs = [K] /\
    queue loc' = enqueue_evict (dictionary_size args) (queue loc) K /\
    occurs is_loss evs = is_ready (length (queue loc)) (dictionary_size args) /\
    (forall tau C l, EvLoss tau C l ∈ evs ->
       Z.of_nat C = dictionary_size args /\ length (queue loc) = C) /\
    ((0 < dictionary_size args)%Z ->
     occurs is_loss evs = true ->
     occurs is_loss
       (events_of W (train_loop W args beta_default temp train_locals pre) s) = false ->
     exists pre' d loc0 s0,
       pre = pre' ++ [d] /\
       train_loop W args beta_default temp train_locals pre' s = (Ok loc0, s0) /\
       (Z.of_nat (length (queue loc0)) < dictionary_size args)%Z /\
       Z.of_nat (length (queue loc)) = dictionary_size args).
Proof.
  intros Hcap Hok.
  pose proof Hok as Hok'. apply Forall_app in Hok' as [Hpre Hdata].
  apply Forall_cons in Hdata as [Hdata _].
  pose proof (loader_ok_defined W args beta_default temp pre s train_locals Hpre) as Hdef.
  pose proof (train_loop_eq W args beta_default temp pre s train_locals Hdef) as Hloop.
  set (loc := loop_locals W args beta_default temp s train_locals pre) in *.
  set (s1 := loop_state W args beta_default temp s train_locals pre) in *.
  assert (step_ready args loc = true -> n_data loc + length data <> 0) as Hpos.
  { intros _. destruct data; [done|]. simpl. lia. }
  pose proof (train_step_eq W args beta_default temp loc data s1 Hpos) as Hstep.
  assert (Z.of_nat (length (queue loc)) <= dictionary_size args)%Z as Hbound.
  { apply loop_locals_bounded; [done|]. simpl. lia. }
  exists loc, s1, (step_locals W args temp s1 loc data),
         (step_state W args beta_default temp s1 loc data), (step_k W s1 data).
  split; [done|]. split; [done|]. split.
  { rewrite (train_loop_eq W args beta_default temp (pre ++ [data]) s train_locals)
      by (by apply loader_ok_defined).
    by rewrite loop_locals_app, loop_state_app. }
  cbv zeta.
  rewrite (events_of_train_step W args beta_default temp s1 loc data Hpos).
  destruct (step_events_kinds W args beta_default temp s1 loc data)
    as (Hl & _ & _ & _ & _ & _ & _ & Hk & Hq).
  split; [done|]. split; [done|]. split; [apply step_locals_queue|].
  split; [done|]. split.
  - intros tau C l Hin. unfold step_events in Hin.
    destruct (step_ready args loc) eqn:Hr.
    + unfold step_ready, is_ready in Hr. rewrite Z.geb_leb in Hr.
      apply Z.leb_le in Hr.
      apply list_elem_of_In in Hin. simpl in Hin.
      destruct Hin as [Hin|[Hin|[Hin|[Hin|[Hin|Hin]]]]]; try discriminate.
      * inversion Hin; subst. lia.
      * destruct Hin as [Hin|[Hin|[Hin|[Hin|[Hin|[Hin|Hin]]]]]];
          try discriminate; done.
    + apply list_elem_of_In in Hin. simpl in Hin.
      destruct Hin as [Hin|[Hin|[Hin|[Hin|[Hin|[Hin|Hin]]]]]];
        try discriminate; done.
  - intros Hcap' Hloss Hnone.
    rewrite Hl in Hloss. unfold step_ready, is_ready in Hloss.
    rewrite Z.geb_leb in Hloss. apply Z.leb_le in Hloss.
    rewrite (events_of_train_loop W args beta_default temp s train_locals pre Hdef) in Hnone.
    destruct (decide (pre = [])) as [->|Hne].
    { simpl in Hloss. lia. }
    destruct (exists_last Hne) as (pre' & d & ->).
    apply Forall_app in Hpre as [Hpre' _].
    pose proof (loader_ok_defined W args beta_default temp pre' s train_locals Hpre')
      as Hdef'.
    exists pre', d, (loop_locals W args beta_default temp s train_locals pre'),
           (loop_state W args beta_default temp s train_locals pre').
    split; [done|]. split; [by apply train_loop_eq|]. split; [|lia].
    rewrite loop_events_app, occurs_app in Hnone.
    apply orb_false_elim in Hnone as [_ Hnone].
    cbn [loop_events] in Hnone. rewrite app_nil_r in Hnone.
    destruct (step_events_kinds W args beta_default temp
                (loop_state W args beta_default temp s train_locals pre')
                (loop_locals W args beta_default temp s train_locals pre') d)
      as (Hl' & _).
    rewrite Hl' in Hnone. unfold step_ready, is_ready in Hnone.
    rewrite Z.geb_leb in Hnone. apply Z.leb_gt in Hnone. done.
Qed.

(** Capacity two, batches of one sample: the third step is the first to
    produce a loss. *)
Lemma readiness_before_enqueue_witness :
  exists loc s1,
    train_loop (toy_world sym) (toy_args 2 1) (SNat 1) temp_default train_locals
               [[5]; [6]] toy_state = (Ok loc, s1) /\
    occurs is_loss
      (events_of (toy_world sym)
         (train_step (toy_world sym) (toy_args 2 1) (SNat 1) temp_default loc [7]) s1)
    = is_ready (length (queue loc)) 2.
Proof.
  destruct (readiness_before_enqueue (toy_world sym) (toy_args 2 1) (SNat 1) temp_default
              [[5]; [6]] [7] toy_state)
    as (loc & s1 & loc' & s2 & K & Hloop & _ & _ & _ & _ & _ & Hready & _).
  - vm_compute. discriminate.
  - repeat constructor; discriminate.
  - exists loc, s1. split; [exact Hloop | exact Hready].
Defined.

(** ** The whole run *)

Section MainLemmas.
Context {R : Type} `{Arith R, Transc R} (W : World R) `{!WorldOk W}.
Variable args : Args.
Variable beta_default : R.

Lemma events_of_extends {A : Type} (c : state W -> result A * state W)
    (s : state W) (evs : list (event R)) :
  trace W (c s).2 = trace W s ++ evs -> events_of W c s = evs.
Proof. intros Htr. unfold events_of. by rewrite Htr, drop_app_length. Qed.

Lemma train_state temp train_loader epoch (s : state W) :
  loop_defined W args beta_default temp s train_locals train_loader ->
  (train W args beta_default train_loader epoch temp s).2
  = loop_state W args beta_default temp s train_locals train_loader.
Proof.
  intros Hdef. unfold train, bind.
  rewrite (train_loop_eq W args beta_default temp train_loader s train_locals Hdef).
  unfold py_div. by destruct (decide _).
Qed.

Lemma events_of_train temp train_loader epoch (s : state W) :
  loop_defined W args beta_default temp s train_locals train_loader ->
  events_of W (train W args beta_default train_loader epoch temp) s
  = loop_events W args beta_default temp s train_locals train_loader.
Proof.
  intros Hdef. apply events_of_extends.
  rewrite train_state by done. apply loop_state_trace.
Qed.





End MainLemmas.

(** C5 as stated does not hold: with capacity one and two epochs of two
    one-sample batches, the first step of the second epoch begins with an
    empty dictionary although the first epoch ended with a full one. *)
Lemma dictionary_persists_counterexample :
  ~ dictionary_persists (toy_world sym) (toy_args 1 2) (SNat 1)
      (fun _ => [[5]; [6]]) toy_state.
Proof. unfold dictionary_persists. vm_compute. discriminate. Qed.

(** The dictionary lengths the four steps of that run begin with, against
    the lengths a dictionary kept across the epochs would have. *)
Example dictionary_lengths_two_epochs :
  let evs :=
    events_of (toy_world sym)
      (main (toy_world sym) (toy_args 1 2) (SNat 1) (fun _ => [[5]; [6]])) toy_state in
  map length (step_queues evs) = [0; 1; 0; 1] /\
  map length (dictionary_history 1 [] (step_keys evs)) = [0; 1; 1; 1].
Proof. vm_compute. done. Qed.

(** C5, amended. The dictionary lives for one call of [train], that is for
    one epoch: it is created empty when the call begins, every step of the
    epoch enqueues into it and evicts from it, and every step after the first
    begins with the dictionary the previous step left.  Nothing is carried
    from one epoch to the next. *)
Theorem dictionary_within_epoch {R : Type} `{Arith R, Transc R} (W : World R)
    `{!WorldOk W} (args : Args) (beta_default temp : R)
    (train_loader : list (list (Img W))) (epoch : nat) (s : state W) :
  loader_ok W train_loader ->
  let evs := events_of W (train W args beta_default train_loader epoch temp) s in
  step_queues evs = dictionary_history (dictionary_size args) [] (step_keys evs) /\
  length (step_queues evs) = length train_loader /\
  count is_enqueue evs = length train_loader /\
  count is_evict evs = length train_loader /\
  (train_loader <> [] -> head (step_queues evs) = Some []).
Proof.
  intros Hok evs.
  pose proof (loader_ok_defined W args beta_default temp train_loader s train_locals Hok)
    as Hdef.
  subst evs. rewrite (events_of_train W args beta_default temp train_loader epoch s Hdef).
  destruct (loop_events_history W args beta_default temp train_loader s train_locals)
    as (Hhist & Hlen & _).
  assert (forall (s0 : state W) loc,
            let evs := loop_events W args beta_default temp s0 loc train_loader in
            length (step_queues evs) = length train_loader /\
            count is_enqueue evs = length train_loader /\
            count is_evict evs = length train_loader) as Hcounts.
  { clear. induction train_loader as [|d rest IH]; intros s0 loc; cbv zeta; [done|].
    cbn [loop_events]. rewrite step_queues_app, length_app, !count_app.
    destruct (step_events_kinds W args beta_default temp s0 loc d)
      as (_ & _ & _ & _ & _ & He & Hv & _ & Hq).
    destruct (IH (step_state W args beta_default temp s0 loc d)
                 (step_locals W args temp s0 loc d)) as (IH1 & IH2 & IH3).
    rewrite He, Hv, Hq, IH1, IH2, IH3. done. }
  destruct (Hcounts s train_locals) as (Hq & He & Hv).
  split; [exact Hhist|]. split; [exact Hq|]. split; [exact He|]. split; [exact Hv|].
  intros Hne. rewrite Hhist.
  destruct (step_keys (loop_events W args beta_default temp s train_locals train_loader))
    as [|k ks] eqn:Hks.
  - simpl in Hlen. destruct train_loader; [done|]. simpl in Hlen. lia.
  - done.
Qed.

Lemma dictionary_within_epoch_witness :
  let evs :=
    events_of (toy_world sym)
      (train (toy_world sym) (toy_args 1 2) (SNat 1) [[5]; [6]] 2 temp_default)
      toy_state in
  step_queues evs = dictionary_history 1 [] (step_keys evs) /\
  head (step_queues evs) = Some [].
Proof.
  destruct (dictionary_within_epoch (toy_world sym) (toy_args 1 2) (SNat 1) temp_default
              [[5]; [6]] 2 toy_state) as (Hhist & _ & _ & _ & Hhead).
  - repeat constructor; discriminate.
  - split; [exact Hhist|]. apply Hhead. discriminate.
Defined.

(** C7. With exact arithmetic a momentum update with coefficient 0 makes
    every key parameter equal to the corresponding query parameter, whatever
    the key parameters were before; and the main program performs one such
    update, and nothing else, before it enters the loop over the epochs, so
    that training starts with the key encoder an exact copy of the query
    encoder. *)
Theorem momentum_zero_copies {R : Type} `{Arith R, Transc R} `{!ExactArith R}
    (W : World R) (args : Args) (beta_default : R)
    (train_loader : nat -> list (list (Img W))) (s : state W) :
  length (model_k W s) = length (model_q W s) ->
  (forall theta_q theta_k : list R,
     length theta_k = length theta_q ->
     momentum_update theta_q theta_k r_zero = theta_q) /\
  exists s1,
    main_init W s = (Ok tt, s1) /\
    events_of W (main_init W) s = [EvMomentum r_zero] /\
    model_k W s1 = model_q W s1 /\
    model_q W s1 = model_q W s /\
    main W args beta_default train_loader s
    = epoch_loop W args beta_default train_loader (epoch_range args) [] s1.
Proof.
  intros Hshape.
  assert (forall theta_q theta_k : list R,
            length theta_k = length theta_q ->
            momentum_update theta_q theta_k r_zero = theta_q) as Hcopy.
  { unfold momentum_update. intros theta_q.
    induction theta_q as [|x theta_q IH]; intros [|y theta_k] Hlen; try done.
    simpl in Hlen. cbn [zip_with]. rewrite IH by lia. f_equal.
    unfold momentum_rule.
    by rewrite r_mul_zero_l, r_sub_zero_r, r_mul_one_l, r_add_zero_l. }
  split; [exact Hcopy|].
  eexists. split; [reflexivity|]. split.
  { unfold events_of, main_init, bind, utils_momentum_update, emit. simpl.
    by rewrite drop_app_length. }
  split; [simpl; by apply Hcopy|]. split; [done|].
  reflexivity.
Qed.

(** Integer parameters: the key encoder starts as the query encoder. *)
Lemma momentum_zero_copies_witness :
  momentum_update [1; 2; 3]%Z [40; 50; 60]%Z 0%Z = [1; 2; 3]%Z.
Proof.
  destruct (momentum_zero_copies (toy_world Z) (toy_args 1 1) 0%Z
              (fun _ => []) (initial_state (toy_world Z) [1; 2; 3]%Z [40; 50; 60]%Z 0 0))
    as [Hcopy _].
  - reflexivity.
  - apply Hcopy. reflexivity.
Defined.


(** What that run does: one step begins, and it computes a loss. *)
Example zero_capacity_run :
  let evs :=
    events_of (toy_world sym)
      (main (toy_world sym) (toy_args 0 1) (SNat 1) (fun _ => [[5; 6]])) toy_state in
  count is_step evs = 1 /\ count is_loss evs = 1.
Proof. vm_compute. done. Qed.



(** * Further properties of the training loop *)

(** ** Readiness in terms of the samples delivered *)

Section ReadinessLemmas.
Context {R : Type} `{Arith R, Transc R} (W : World R) `{!WorldOk W}.
Variable args : Args.
Variable beta_default : R.
Variable temp : R.

Lemma n_samples_cons {A : Type} (d : list A) (rest : list (list A)) :
  n_samples (d :: rest) = length d + n_samples rest.
Proof. unfold n_samples. simpl. by rewrite length_app. Qed.

Lemma n_samples_app {A : Type} (l1 l2 : list (list A)) :
  n_samples (l1 ++ l2) = n_samples l1 + n_samples l2.
Proof. unfold n_samples. by rewrite concat_app, length_app. Qed.

(** The dictionary holds what was delivered, up to its capacity. *)
Lemma loop_queue_length train_loader : forall (s : state W) loc,
  length (queue loc) <= Z.to_nat (dictionary_size args) ->
  length (queue (loop_locals W args beta_default temp s loc train_loader))
  = Z.to_nat (dictionary_size args) `min` (length (queue loc) + n_samples train_loader).
Proof.
  induction train_loader as [|d rest IH]; intros s loc Hq.
  - unfold n_samples. simpl. lia.
  - cbn [loop_locals]. rewrite IH.
    + rewrite step_locals_queue, enqueue_evict_length, step_k_length by done.
      rewrite n_samples_cons. lia.
    + rewrite step_locals_queue, enqueue_evict_length. lia.
Qed.

Lemma is_ready_min (capacity : Z) (n : nat) :
  is_ready (Z.to_nat capacity `min` n) capacity = true <-> (capacity <= Z.of_nat n)%Z.
Proof. unfold is_ready. rewrite Z.geb_leb, Z.leb_le. lia. Qed.

(** A ready dictionary stays ready. *)
Lemma step_ready_preserved (s : state W) loc data :
  step_ready args loc = true ->
  step_ready args (step_locals W args temp s loc data) = true.
Proof.
  unfold step_ready, is_ready. rewrite !Z.geb_leb, !Z.leb_le.
  rewrite step_locals_queue, enqueue_evict_length. lia.
Qed.

(** From a ready dictionary on, every step produces a loss and counts its
    samples. *)
Lemma ready_loop train_loader : forall (s : state W) loc,
  step_ready args loc = true ->
  let evs := loop_events W args beta_default temp s loc train_loader in
  count is_loss evs = length train_loader /\
  n_data (loop_locals W args beta_default temp s loc train_loader)
  = n_data loc + n_samples train_loader.
Proof.
  induction train_loader as [|d rest IH]; intros s loc Hr; cbv zeta.
  { unfold n_samples. simpl. split; [done|lia]. }
  cbn [loop_events loop_locals].
  destruct (IH (step_state W args beta_default temp s loc d)
               (step_locals W args temp s loc d)
               (step_ready_preserved s loc d Hr)) as (IHl & IHn).
  destruct (step_events_kinds W args beta_default temp s loc d)
    as (_ & _ & _ & Hl & _).
  rewrite Hr in Hl.
  rewrite count_app, Hl, IHl, IHn, (step_locals_ready W args temp s loc d Hr).
  rewrite n_samples_cons. cbn [length]. split; lia.
Qed.

(** While the samples delivered before a step stay below the capacity the
    loop only fills the dictionary: no loss, no count, and both encoders and
    the optimizer are left alone. *)
Lemma warmup_loop train_loader : forall (s : state W) loc,
  (forall pre d post, train_loader = pre ++ d :: post ->
     (Z.of_nat (length (queue loc) + n_samples pre) < dictionary_size args)%Z) ->
  let s' := loop_state W args beta_default temp s loc train_loader in
  let loc' := loop_locals W args beta_default temp s loc train_loader in
  loop_defined W args beta_default temp s loc train_loader /\
  occurs is_loss (loop_events W args beta_default temp s loc train_loader) = false /\
  n_data loc' = n_data loc /\
  total_loss loc' = total_loss loc /\
  model_q W s' = model_q W s /\
  model_k W s' = model_k W s /\
  optimizer W s' = optimizer W s.
Proof.
  induction train_loader as [|d rest IH]; intros s loc Hbelow; cbv zeta; [done|].
  assert (step_ready args loc = false) as Hr.
  { specialize (Hbelow [] d rest eq_refl). unfold n_samples in Hbelow. simpl in Hbelow.
    unfold step_ready, is_ready. rewrite Z.geb_leb. apply Z.leb_gt. lia. }
  destruct (IH (step_state W args beta_default temp s loc d)
               (step_locals W args temp s loc d))
    as (IHd & IHl & IHn & IHt & IHq & IHk & IHo).
  { intros pre d' post Hsplit.
    specialize (Hbelow (d :: pre) d' post). rewrite Hsplit in Hbelow.
    specialize (Hbelow eq_refl). rewrite n_samples_cons in Hbelow.
    rewrite step_locals_queue, enqueue_evict_length, step_k_length by done. lia. }
  cbn [loop_defined loop_events loop_locals loop_state].
  destruct (step_locals_not_ready W args temp s loc d Hr) as [Hn Ht].
  destruct (step_events_kinds W args beta_default temp s loc d) as (Hl & _).
  split; [split; [rewrite Hr; discriminate|done]|].
  split; [by rewrite occurs_app, Hl, Hr, IHl|].
  rewrite IHn, IHt, IHq, IHk, IHo, Hn, Ht.
  unfold step_state. rewrite Hr. done.
Qed.

End ReadinessLemmas.

(** X1. Within an epoch a step is loss-producing exactly when the batches
    delivered before it hold at least [dictionary_size] samples; until then
    the dictionary holds every key enqueued so far, afterwards exactly
    [dictionary_size] of them. *)
Theorem loss_step_iff_enough_samples {R : Type} `{Arith R, Transc R} (W : World R)
    `{!WorldOk W} (args : Args) (beta_default temp : R)
    (pre : list (list (Img W))) (data : list (Img W)) (s : state W) :
  loader_ok W (pre ++ [data]) ->
  exists loc s1,
    train_loop W args beta_default temp train_locals pre s = (Ok loc, s1) /\
    length (queue loc) = Z.to_nat (dictionary_size args) `min` n_samples pre /\
    (occurs is_loss (events_of W (train_step W args beta_default temp loc data) s1) = true
     <-> (dictionary_size args <= Z.of_nat (n_samples pre))%Z).
Proof.
  intros Hok. apply Forall_app in Hok as [Hpre Hdata].
  apply Forall_cons in Hdata as [Hdata _].
  pose proof (loader_ok_defined W args beta_default temp pre s train_locals Hpre) as Hdef.
  pose proof (train_loop_eq W args beta_default temp pre s train_locals Hdef) as Hloop.
  assert (length (queue (@train_locals R _)) <= Z.to_nat (dictionary_size args)) as Hq
    by (simpl; lia).
  pose proof (loop_queue_length W args beta_default temp pre s train_locals Hq) as Hlen.
  cbn [train_locals queue length Nat.add] in Hlen.
  set (loc := loop_locals W args beta_default temp s train_locals pre) in *.
  set (s1 := loop_state W args beta_default temp s train_locals pre) in *.
  assert (step_ready args loc = true -> n_data loc + length data <> 0) as Hpos.
  { intros _. destruct data; [done|]. simpl. lia. }
  exists loc, s1. split; [exact Hloop|]. split; [exact Hlen|].
  rewrite (events_of_train_step W args beta_default temp s1 loc data Hpos).
  destruct (step_events_kinds W args beta_default temp s1 loc data) as (Hl & _).
  rewrite Hl. unfold step_ready. rewrite Hlen. apply is_ready_min.
Qed.

(** Capacity three, batches of two samples: the third step is ready. *)
Lemma loss_step_iff_enough_samples_witness :
  exists loc s1,
    train_loop (toy_world sym) (toy_args 3 1) (SNat 1) temp_default train_locals
               [[5; 6]; [7; 8]] toy_state = (Ok loc, s1) /\
    length (queue loc) = 3.
Proof.
  destruct (loss_step_iff_enough_samples (toy_world sym) (toy_args 3 1) (SNat 1)
              temp_default [[5; 6]; [7; 8]] [9; 10] toy_state)
    as (loc & s1 & Hloop & Hlen & _).
  - repeat constructor; discriminate.
  - exists loc, s1. split; [exact Hloop | exact Hlen].
Defined.

(** X2. Readiness does not go away within an epoch: once a step begins with
    a ready dictionary, every later step of the same epoch does. *)
Theorem readiness_is_kept {R : Type} `{Arith R, Transc R} (W : World R)
    `{!WorldOk W} (args : Args) (beta_default temp : R)
    (pre later : list (list (Img W))) (s : state W) :
  loader_ok W (pre ++ later) ->
  exists loc1 s1 loc2 s2,
    train_loop W args beta_default temp train_locals pre s = (Ok loc1, s1) /\
    train_loop W args beta_default temp train_locals (pre ++ later) s = (Ok loc2, s2) /\
    (is_ready (length (queue loc1)) (dictionary_size args) = true ->
     is_ready (length (queue loc2)) (dictionary_size args) = true).
Proof.
  intros Hok. pose proof Hok as Hok'. apply Forall_app in Hok' as [Hpre _].
  pose proof (loader_ok_defined W args beta_default temp pre s train_locals Hpre) as Hdef1.
  pose proof (loader_ok_defined W args beta_default temp _ s train_locals Hok) as Hdef2.
  eexists _, _, _, _.
  split; [by apply train_loop_eq|]. split; [by apply train_loop_eq|].
  rewrite !(loop_queue_length W args beta_default temp) by (simpl; lia).
  rewrite !is_ready_min, n_samples_app. simpl. lia.
Qed.

Lemma readiness_is_kept_witness :
  exists loc1 s1 loc2 s2,
    train_loop (toy_world sym) (toy_args 1 1) (SNat 1) temp_default train_locals
               [[5]] toy_state = (Ok loc1, s1) /\
    train_loop (toy_world sym) (toy_args 1 1) (SNat 1) temp_default train_locals
               [[5]; [6]; [7]] toy_state = (Ok loc2, s2) /\
    (is_ready (length (queue loc1)) 1 = true -> is_ready (length (queue loc2)) 1 = true).
Proof.
  apply (readiness_is_kept (toy_world sym) (toy_args 1 1) (SNat 1) temp_default
           [[5]] [[6]; [7]] toy_state).
  repeat constructor; discriminate.
Defined.

(** ** What an epoch returns *)

Section OutcomeLemmas.
Context {R : Type} `{Arith R, Transc R} (W : World R) `{!WorldOk W}.
Variable args : Args.
Variable beta_default : R.
Variable temp : R.

Lemma occurs_false_count (p : event R -> bool) (tr : list (event R)) :
  occurs p tr = false -> count p tr = 0.
Proof.
  unfold occurs, count. induction tr as [|e tr IH]; [done|].
  simpl. destruct (p e); [done|]. exact IH.
Qed.

Lemma split_before_last {A : Type} (l pre : list (list A)) d post :
  l = pre ++ d :: post -> n_samples pre <= n_samples (removelast l).
Proof.
  intros ->. rewrite removelast_app by done. rewrite n_samples_app. lia.
Qed.

Lemma epoch_trains_snoc {A : Type} (capacity : Z) (pre : list (list A)) (d : list A) :
  epoch_trains capacity (pre ++ [d]) = (capacity <=? Z.of_nat (n_samples pre))%Z.
Proof.
  unfold epoch_trains. rewrite removelast_last. by destruct pre.
Qed.

(** An epoch whose sizes do not let it train is all warm-up. *)
Lemma not_trains_below (train_loader : list (list (Img W))) :
  epoch_trains (dictionary_size args) train_loader = false ->
  forall pre d post, train_loader = pre ++ d :: post ->
    (Z.of_nat (length (queue (@train_locals R _)) + n_samples pre)
     < dictionary_size args)%Z.
Proof.
  intros Hno pre d post Hsplit.
  pose proof (split_before_last _ _ _ _ Hsplit) as Hle.
  destruct train_loader as [|d0 rest]; [by destruct pre|].
  unfold epoch_trains in Hno. apply Z.leb_gt in Hno. simpl length. lia.
Qed.

Lemma train_not_trains (train_loader : list (list (Img W))) epoch (s : state W) :
  epoch_trains (dictionary_size args) train_loader = false ->
  let s' := loop_state W args beta_default temp s train_locals train_loader in
  train W args beta_default train_loader epoch temp s = (Raise ZeroDivisionError, s') /\
  occurs is_loss (loop_events W args beta_default temp s train_locals train_loader) = false /\
  model_q W s' = model_q W s /\
  model_k W s' = model_k W s /\
  optimizer W s' = optimizer W s.
Proof.
  intros Hno s'.
  destruct (warmup_loop W args beta_default temp train_loader s train_locals
              (not_trains_below train_loader Hno))
    as (Hdef & Hl & Hn & _ & Hq & Hk & Ho).
  split; [|done].
  unfold train, bind.
  rewrite (train_loop_eq W args beta_default temp train_loader s train_locals Hdef).
  unfold py_div. rewrite Hn. done.
Qed.

Lemma train_trains (train_loader : list (list (Img W))) epoch (s : state W) :
  loader_ok W train_loader ->
  epoch_trains (dictionary_size args) train_loader = true ->
  let s' := loop_state W args beta_default temp s train_locals train_loader in
  let loc' := loop_locals W args beta_default temp s train_locals train_loader in
  n_data loc' <> 0 /\
  train W args beta_default train_loader epoch temp s
  = (Ok (r_div (total_loss loc') (r_of_nat (n_data loc'))), s').
Proof.
  intros Hok Htrains s' loc'.
  pose proof (loader_ok_defined W args beta_default temp train_loader s train_locals Hok)
    as Hdef.
  assert (n_data loc' <> 0) as Hn.
  { assert (train_loader <> []) as Hne by (by intros ->).
    destruct (exists_last Hne) as (pre & d & Hsplit).
    subst loc'. rewrite Hsplit in Htrains, Hok |- *.
    rewrite epoch_trains_snoc in Htrains. apply Z.leb_le in Htrains.
    apply Forall_app in Hok as [_ Hlast]. apply Forall_cons in Hlast as [Hlast _].
    rewrite loop_locals_app. cbn [loop_locals].
    rewrite step_locals_ready.
    - destruct d; [done|]. simpl. lia.
    - unfold step_ready.
      rewrite (loop_queue_length W args beta_default temp) by (simpl; lia).
      apply is_ready_min. simpl. lia. }
  split; [exact Hn|].
  unfold train, bind.
  rewrite (train_loop_eq W args beta_default temp train_loader s train_locals Hdef).
  unfold py_div. fold loc'. by rewrite decide_False.
Qed.

End OutcomeLemmas.

(** X3. Whether [train] returns a mean loss is decided by the sizes of the
    batches alone.  If the batches before the last one hold at least
    [dictionary_size] samples, [train] returns the accumulated loss divided
    by a positive count of examples.  Otherwise (also for an empty loader) it
    raises ZeroDivisionError, and it has changed neither encoder nor the
    optimizer: the whole epoch was warm-up. *)
Theorem train_outcome {R : Type} `{Arith R, Transc R} (W : World R)
    `{!WorldOk W} (args : Args) (beta_default temp : R)
    (train_loader : list (list (Img W))) (epoch : nat) (s : state W) :
  loader_ok W train_loader ->
  if epoch_trains (dictionary_size args) train_loader
  then
    exists loc s',
      train_loop W args beta_default temp train_locals train_loader s = (Ok loc, s') /\
      n_data loc <> 0 /\
      train W args beta_default train_loader epoch temp s
      = (Ok (r_div (total_loss loc) (r_of_nat (n_data loc))), s')
  else
    exists s',
      train W args beta_default train_loader epoch temp s = (Raise ZeroDivisionError, s') /\
      occurs is_loss (events_of W (train W args beta_default train_loader epoch temp) s)
      = false /\
      model_q W s' = model_q W s /\
      model_k W s' = model_k W s /\
      optimizer W s' = optimizer W s.
Proof.
  intros Hok.
  pose proof (loader_ok_defined W args beta_default temp train_loader s train_locals Hok)
    as Hdef.
  destruct (epoch_trains (dictionary_size args) train_loader) eqn:Htrains.
  - destruct (train_trains W args beta_default temp train_loader epoch s Hok Htrains)
      as (Hn & Htrain).
    eexists _, _. split; [by apply train_loop_eq|]. split; [exact Hn|exact Htrain].
  - destruct (train_not_trains W args beta_default temp train_loader epoch s Htrains)
      as (Htrain & Hl & Hq & Hk & Ho).
    eexists. split; [exact Htrain|].
    rewrite (events_of_train W args beta_default temp train_loader epoch s Hdef).
    done.
Qed.

(** Capacity three: two batches of two samples do not train, three do. *)
Lemma train_outcome_witness :
  (exists s',
     train (toy_world sym) (toy_args 3 1) (SNat 1) [[5; 6]; [7; 8]] 1 temp_default toy_state
     = (Raise ZeroDivisionError, s')) /\
  (exists v s',
     train (toy_world sym) (toy_args 3 1) (SNat 1) [[5; 6]; [7; 8]; [9; 10]] 1
           temp_default toy_state
     = (Ok v, s')).
Proof.
  split.
  - destruct (train_outcome (toy_world sym) (toy_args 3 1) (SNat 1) temp_default
                [[5; 6]; [7; 8]] 1 toy_state) as (s' & Htrain & _).
    + repeat constructor; discriminate.
    + exists s'. exact Htrain.
  - destruct (train_outcome (toy_world sym) (toy_args 3 1) (SNat 1) temp_default
                [[5; 6]; [7; 8]; [9; 10]] 1 toy_state) as (loc & s' & _ & _ & Htrain).
    + repeat constructor; discriminate.
    + eexists _, s'. exact Htrain.
Defined.

(** X4. The samples of the warm-up steps are not counted.  When the step
    after [pre] is the first loss-producing step of the epoch, the loop ends
    with [n_data] equal to the number of samples from that step on, one loss
    per step from that step on, and [train] returns the accumulated loss
    divided by that count. *)
Theorem warmup_samples_not_counted {R : Type} `{Arith R, Transc R} (W : World R)
    `{!WorldOk W} (args : Args) (beta_default temp : R)
    (pre : list (list (Img W))) (data : list (Img W)) (post : list (list (Img W)))
    (epoch : nat) (s : state W) :
  loader_ok W (pre ++ data :: post) ->
  epoch_trains (dictionary_size args) pre = false ->
  (dictionary_size args <= Z.of_nat (n_samples pre))%Z ->
  exists loc s',
    train_loop W args beta_default temp train_locals (pre ++ data :: post) s
    = (Ok loc, s') /\
    n_data loc = n_samples (data :: post) /\
    count is_loss
      (events_of W (train_loop W args beta_default temp train_locals (pre ++ data :: post)) s)
    = length (data :: post) /\
    train W args beta_default (pre ++ data :: post) epoch temp s
    = (Ok (r_div (total_loss loc) (r_of_nat (n_samples (data :: post)))), s').
Proof.
  intros Hok Hno Hreach.
  pose proof (loader_ok_defined W args beta_default temp _ s train_locals Hok) as Hdef.
  pose proof (train_loop_eq W args beta_default temp _ s train_locals Hdef) as Hloop.
  destruct (warmup_loop W args beta_default temp pre s train_locals
              (not_trains_below W args pre Hno))
    as (_ & Hl & Hn & _).
  assert (step_ready args (loop_locals W args beta_default temp s train_locals pre) = true)
    as Hr.
  { unfold step_ready.
    rewrite (loop_queue_length W args beta_default temp) by (simpl; lia).
    apply is_ready_min. simpl. lia. }
  destruct (ready_loop W args beta_default temp (data :: post)
              (loop_state W args beta_default temp s train_locals pre)
              (loop_locals W args beta_default temp s train_locals pre) Hr)
    as (Hl2 & Hn2).
  assert (n_data (loop_locals W args beta_default temp s train_locals (pre ++ data :: post))
          = n_samples (data :: post)) as Hcount.
  { rewrite loop_locals_app, Hn2, Hn. done. }
  eexists _, _. split; [exact Hloop|]. split; [exact Hcount|]. split.
  - rewrite (events_of_train_loop W args beta_default temp s train_locals _ Hdef).
    rewrite loop_events_app, count_app, Hl2.
    by rewrite (occurs_false_count _ _ Hl).
  - unfold train, bind. rewrite Hloop. unfold py_div.
    rewrite Hcount. rewrite decide_False; [done|].
    apply Forall_app in Hok as [_ Hok]. apply Forall_cons in Hok as [Hd _].
    rewrite n_samples_cons. destruct data; [done|]. simpl. lia.
Qed.

(** Capacity two, batches of one sample: two warm-up steps, then two
    loss-producing steps whose two samples are the ones counted. *)
Lemma warmup_samples_not_counted_witness :
  exists loc s',
    train_loop (toy_world sym) (toy_args 2 1) (SNat 1) temp_default train_locals
               [[5]; [6]; [7]; [8]] toy_state = (Ok loc, s') /\
    n_data loc = 2.
Proof.
  destruct (warmup_samples_not_counted (toy_world sym) (toy_args 2 1) (SNat 1)
              temp_default [[5]; [6]] [7] [[8]] 1 toy_state)
    as (loc & s' & Hloop & Hn & _).
  - repeat constructor; discriminate.
  - reflexivity.
  - vm_compute. discriminate.
  - exists loc, s'. split; [exact Hloop | exact Hn].
Defined.

(** ** What a run completes *)

Section RunLemmas.
Context {R : Type} `{Arith R, Transc R} (W : World R) `{!WorldOk W}.
Variable args : Args.
Variable beta_default : R.

Lemma tested_epochs_app (tr1 tr2 : list (event R)) :
  tested_epochs (tr1 ++ tr2) = tested_epochs tr1 ++ tested_epochs tr2.
Proof. unfold tested_epochs. apply omap_app. Qed.

Lemma lr_stepped_epochs_app (tr1 tr2 : list (event R)) :
  lr_stepped_epochs (tr1 ++ tr2) = lr_stepped_epochs tr1 ++ lr_stepped_epochs tr2.
Proof. unfold lr_stepped_epochs. apply omap_app. Qed.

(** The steps of an epoch neither evaluate nor touch the schedule. *)
Lemma loop_events_no_epoch_events temp train_loader : forall (s : state W) loc,
  let evs := loop_events W args beta_default temp s loc train_loader in
  tested_epochs evs = [] /\ lr_stepped_epochs evs = [].
Proof.
  induction train_loader as [|d rest IH]; intros s loc; cbv zeta; [done|].
  cbn [loop_events]. rewrite tested_epochs_app, lr_stepped_epochs_app.
  destruct (IH (step_state W args beta_default temp s loc d)
               (step_locals W args temp s loc d)) as [-> ->].
  unfold step_events, ready_events. by destruct (step_ready args loc).
Qed.

(** In an epoch the gradient step and the momentum update come once per
    loss, and no step begins with more dictionary entries than the capacity
    allows. *)
Lemma loop_events_paired temp train_loader : forall (s : state W) loc,
  length (queue loc) <= Z.to_nat (dictionary_size args) ->
  let evs := loop_events W args beta_default temp s loc train_loader in
  count is_optimizer_step evs = count is_loss evs /\
  count is_momentum evs = count is_loss evs /\
  Forall (fun q => length q <= Z.to_nat (dictionary_size args)) (step_queues evs) /\
  count is_shuffle evs = count is_step evs /\
  Forall shuffle_event_ok evs.
Proof.
  induction train_loader as [|d rest IH]; intros s loc Hq; cbv zeta; [done|].
  cbn [loop_events]. rewrite !count_app, step_queues_app.
  destruct (IH (step_state W args beta_default temp s loc d)
               (step_locals W args temp s loc d)) as (IHo & IHm & IHq & IHs & IHp).
  { rewrite step_locals_queue, enqueue_evict_length. lia. }
  rewrite IHo, IHm, IHs.
  destruct (step_events_kinds W args beta_default temp s loc d)
    as (_ & _ & _ & _ & _ & _ & _ & _ & Hqs).
  rewrite Hqs.
  split; [|split; [|split; [|split]]].
  - f_equal. unfold step_events, ready_events. by destruct (step_ready args loc).
  - f_equal. unfold step_events, ready_events. by destruct (step_ready args loc).
  - apply Forall_app. split; [|done]. by constructor.
  - f_equal. unfold step_events, ready_events. by destruct (step_ready args loc).
  - apply Forall_app. split; [|done].
    pose proof (step_shuffle_inverse W s (length d)) as Hpair.
    assert (length (step_shuffle W (rng W s) (length d)) = length d) as Hlen.
    { destruct Hpair as (Hp & _).
      by destruct (permutation_seq_bounds _ _ Hp) as (Hl & _). }
    unfold step_events, ready_events.
    apply Forall_app. split.
    { constructor; [exact I|]. constructor; [exact I|].
      constructor; [simpl; rewrite Hlen; exact Hpair|].
      constructor; [exact I|]. constructor. }
    apply Forall_app. split.
    { destruct (step_ready args loc); repeat (constructor; [exact I|]); constructor. }
    repeat (constructor; [exact I|]); constructor.
Qed.

Lemma epoch_loop_outcome (train_loader : nat -> list (list (Img W))) todo :
  forall (results : list R) (s : state W),
  (forall epoch, loader_ok W (train_loader epoch)) ->
  exists evs,
    trace W (epoch_loop W args beta_default train_loader todo results s).2
    = trace W s ++ evs /\
    tested_epochs evs = trained_prefix (dictionary_size args) train_loader todo /\
    lr_stepped_epochs evs = trained_prefix (dictionary_size args) train_loader todo /\
    (count is_optimizer_step evs = count is_loss evs /\
     count is_momentum evs = count is_loss evs /\
     Forall (fun q => length q <= Z.to_nat (dictionary_size args)) (step_queues evs) /\
     count is_shuffle evs = count is_step evs /\
     Forall shuffle_event_ok evs) /\
    if forallb (fun epoch => epoch_trains (dictionary_size args) (train_loader epoch)) todo
    then
      exists results',
        (epoch_loop W args beta_default train_loader todo results s).1 = Ok results' /\
        length results' = length results + length todo
    else
      (epoch_loop W args beta_default train_loader todo results s).1
      = Raise ZeroDivisionError.
Proof.
  induction todo as [|epoch rest IH]; intros results s Hok.
  { exists []. simpl. rewrite app_nil_r. split; [done|]. split; [done|]. split; [done|].
    split; [done|]. exists results. split; [done|lia]. }
  cbn [trained_prefix forallb].
  destruct (loop_events_no_epoch_events temp_default (train_loader epoch) s train_locals)
    as [Htest Hlr].
  destruct (loop_events_paired temp_default (train_loader epoch) s train_locals)
    as (Hpo & Hpm & Hpq & Hps & Hpp); [simpl; lia|].
  set (loc1 := loop_locals W args beta_default temp_default s train_locals
                 (train_loader epoch)).
  set (s1 := loop_state W args beta_default temp_default s train_locals
               (train_loader epoch)).
  destruct (epoch_trains (dictionary_size args) (train_loader epoch)) eqn:Htrains.
  - destruct (train_trains W args beta_default temp_default (train_loader epoch) epoch s
                (Hok epoch) Htrains) as (_ & Htrain).
    fold loc1 s1 in Htrain.
    set (s2 := State W (model_q W s1) (model_k W s1)
                     (lr_scheduler_step W (optimizer W s1) epoch) (rng W s1)
                     (trace W s ++
                      loop_events W args beta_default temp_default s train_locals
                        (train_loader epoch) ++ [EvTest epoch; EvLrStep epoch])).
    assert (epoch_loop W args beta_default train_loader (epoch :: rest) results s
            = epoch_loop W args beta_default train_loader rest
                (results ++ [r_div (total_loss loc1) (r_of_nat (n_data loc1))]) s2)
      as Hstep.
    { cbn [epoch_loop]. unfold bind at 1. rewrite Htrain.
      unfold bind at 1. unfold emit at 1. cbn [fst snd].
      unfold bind at 1. unfold scheduler_step at 1.
      unfold bind at 1. unfold emit at 1.
      cbn [model_q model_k optimizer rng trace].
      unfold s2, s1. rewrite loop_state_trace, <- !app_assoc. done. }
    rewrite Hstep.
    destruct (IH (results ++ [r_div (total_loss loc1) (r_of_nat (n_data loc1))]) s2 Hok)
      as (evs & Htr & Ht & Hl & (Ho2 & Hm2 & Hq2 & Hs2 & Hp2) & Hres).
    cbn [trace s2] in Htr.
    exists (loop_events W args beta_default temp_default s train_locals (train_loader epoch)
            ++ [EvTest epoch; EvLrStep epoch] ++ evs).
    split; [rewrite Htr; by rewrite <- !app_assoc|].
    rewrite !tested_epochs_app, !lr_stepped_epochs_app, Htest, Hlr, Ht, Hl.
    split; [done|]. split; [done|].
    split.
    { rewrite !count_app, !step_queues_app, Hpo, Hpm, Ho2, Hm2, Hps, Hs2.
      split; [done|]. split; [done|]. split.
      { apply Forall_app. split; [done|]. apply Forall_app. split; [|done]. constructor. }
      split; [done|].
      apply Forall_app. split; [done|]. apply Forall_app. split; [|done].
      repeat constructor. }
    cbn [andb].
    destruct (forallb _ rest); [|done].
    destruct Hres as (results' & Hrun & Hlen).
    exists results'. split; [done|]. rewrite Hlen, length_app. simpl. lia.
  - destruct (train_not_trains W args beta_default temp_default (train_loader epoch)
                epoch s Htrains) as (Htrain & _).
    assert (epoch_loop W args beta_default train_loader (epoch :: rest) results s
            = (Raise ZeroDivisionError, s1)) as Hstep.
    { cbn [epoch_loop]. unfold bind at 1. by rewrite Htrain. }
    rewrite Hstep. cbn [fst snd andb].
    exists (loop_events W args beta_default temp_default s train_locals (train_loader epoch)).
    split; [apply loop_state_trace|]. split; [done|]. split; [done|]. done.
Qed.

End RunLemmas.

(** X5. A run completes exactly the epochs before the first one whose batch
    sizes do not let it train: for those, and only for those, the evaluation
    runs and the learning-rate schedule is stepped, in order.  If every epoch
    trains, the run returns one mean loss per epoch; otherwise it stops with
    ZeroDivisionError at the first epoch that does not. *)
Theorem main_outcome {R : Type} `{Arith R, Transc R} (W : World R)
    `{!WorldOk W} (args : Args) (beta_default : R)
    (train_loader : nat -> list (list (Img W))) (s : state W) :
  (forall epoch, loader_ok W (train_loader epoch)) ->
  let completed := trained_prefix (dictionary_size args) train_loader (epoch_range args) in
  let evs := events_of W (main W args beta_default train_loader) s in
  tested_epochs evs = completed /\
  lr_stepped_epochs evs = completed /\
  if forallb (fun epoch => epoch_trains (dictionary_size args) (train_loader epoch))
             (epoch_range args)
  then
    exists results s',
      main W args beta_default train_loader s = (Ok results, s') /\
      length results = Z.to_nat (epochs args)
  else
    exists s',
      main W args beta_default train_loader s = (Raise ZeroDivisionError, s').
Proof.
  intros Hok completed evs. subst completed evs.
  unfold main, main_init.
  assert (forall c : state W -> result (list R) * state W,
            bind W (bind W (utils_momentum_update W r_zero)
                      (fun _ => emit W (EvMomentum r_zero))) (fun _ => c) s
            = c (State W (model_q W s) (momentum_update (model_q W s) (model_k W s) r_zero)
                       (optimizer W s) (rng W s) (trace W s ++ [EvMomentum r_zero])))
    as Hinit by done.
  set (s0 := State W (model_q W s) (momentum_update (model_q W s) (model_k W s) r_zero)
                   (optimizer W s) (rng W s) (trace W s ++ [EvMomentum r_zero])) in *.
  destruct (epoch_loop_outcome W args beta_default train_loader (epoch_range args) [] s0 Hok)
    as (evs & Htr & Ht & Hl & _ & Hres).
  cbn [trace s0] in Htr. rewrite <- app_assoc in Htr.
  rewrite (events_of_extends W _ s ([EvMomentum r_zero] ++ evs))
    by (by rewrite Hinit).
  rewrite tested_epochs_app, lr_stepped_epochs_app. cbn [app].
  split; [exact Ht|]. split; [exact Hl|].
  rewrite Hinit.
  destruct (forallb _ (epoch_range args)).
  - destruct Hres as (results & Hrun & Hlen).
    exists results, (epoch_loop W args beta_default train_loader (epoch_range args) [] s0).2.
    split.
    + rewrite <- Hrun. by destruct (epoch_loop _ _ _ _ _ _ _).
    + rewrite Hlen. unfold epoch_range. rewrite length_seq. simpl. lia.
  - exists (epoch_loop W args beta_default train_loader (epoch_range args) [] s0).2.
    rewrite <- Hres. by destruct (epoch_loop _ _ _ _ _ _ _).
Qed.

(** Capacity two, three epochs; the loader of the second epoch delivers a
    single batch, so the run completes the first epoch only. *)
Lemma main_outcome_witness :
  let train_loader := fun epoch => if decide (epoch = 2) then [[5; 6]] else [[5; 6]; [7]] in
  let evs :=
    events_of (toy_world sym) (main (toy_world sym) (toy_args 2 3) (SNat 1) train_loader)
              toy_state in
  tested_epochs evs = [1] /\
  exists s',
    main (toy_world sym) (toy_args 2 3) (SNat 1) train_loader toy_state
    = (Raise ZeroDivisionError, s').
Proof.
  intros train_loader evs.
  destruct (main_outcome (toy_world sym) (toy_args 2 3) (SNat 1) train_loader toy_state)
    as (Ht & _ & Hres).
  - intros epoch. unfold train_loader.
    destruct (decide (epoch = 2)); repeat constructor; discriminate.
  - split; [exact Ht | exact Hres].
Defined.

(** X6. If the first epoch's loader delivers no more samples than
    [dictionary_size] (as with the default 65536 on a data set of 50000
    images), the run never trains: it raises ZeroDivisionError at the end of
    the first epoch, having computed no loss, run no evaluation, and left the
    query encoder and the optimizer as they were constructed; the key encoder
    is the copy made at initialisation. *)
Theorem first_epoch_too_small_aborts {R : Type} `{Arith R, Transc R} (W : World R)
    `{!WorldOk W} (args : Args) (beta_default : R)
    (train_loader : nat -> list (list (Img W))) (s : state W) :
  (0 < epochs args)%Z ->
  loader_ok W (train_loader 1) ->
  (Z.of_nat (n_samples (train_loader 1%nat)) <= dictionary_size args)%Z ->
  let evs := events_of W (main W args beta_default train_loader) s in
  exists s',
    main W args beta_default train_loader s = (Raise ZeroDivisionError, s') /\
    occurs is_loss evs = false /\
    tested_epochs evs = [] /\
    model_q W s' = model_q W s /\
    model_k W s' = momentum_update (model_q W s) (model_k W s) r_zero /\
    optimizer W s' = optimizer W s.
Proof.
  intros Hepochs Hok Hsmall evs. subst evs.
  assert (epoch_trains (dictionary_size args) (train_loader 1) = false) as Hno.
  { destruct (train_loader 1) as [|d0 rest] eqn:Hl; [done|].
    assert (d0 :: rest <> []) as Hne by done.
    destruct (exists_last Hne) as (pre & d & Hsplit). rewrite Hsplit in *.
    rewrite epoch_trains_snoc. apply Z.leb_gt.
    apply Forall_app in Hok as [_ Hd]. apply Forall_cons in Hd as [Hd _].
    rewrite n_samples_app, n_samples_cons in Hsmall.
    destruct d; [done|]. simpl in Hsmall. lia. }
  assert (exists rest, epoch_range args = 1 :: rest) as [rest Hrange].
  { unfold epoch_range. destruct (Z.to_nat (epochs args)) eqn:Hn; [lia|].
    by eexists. }
  set (s0 := State W (model_q W s) (momentum_update (model_q W s) (model_k W s) r_zero)
                   (optimizer W s) (rng W s) (trace W s ++ [EvMomentum r_zero])).
  destruct (train_not_trains W args beta_default temp_default (train_loader 1) 1 s0 Hno)
    as (Htrain & Hl & Hq & Hk & Ho).
  assert (main W args beta_default train_loader s
          = (Raise ZeroDivisionError,
             loop_state W args beta_default temp_default s0 train_locals (train_loader 1)))
    as Hmain.
  { unfold main, main_init. rewrite Hrange. cbn [epoch_loop].
    unfold bind at 1. unfold bind at 1. unfold utils_momentum_update at 1.
    unfold emit at 1. cbn [model_q model_k optimizer rng trace].
    fold s0. unfold bind at 1. by rewrite Htrain. }
  eexists. split; [exact Hmain|].
  rewrite (events_of_extends W _ s
             ([EvMomentum r_zero]
              ++ loop_events W args beta_default temp_default s0 train_locals
                   (train_loader 1))).
  2: { rewrite Hmain. cbn [snd]. rewrite loop_state_trace. cbn [trace s0].
       by rewrite <- app_assoc. }
  destruct (loop_events_no_epoch_events W args beta_default temp_default
              (train_loader 1) s0 train_locals) as [Htest _].
  rewrite occurs_app, tested_epochs_app, Hl, Htest, Hq, Hk, Ho. done.
Qed.

(** The default sizes of the program: 50000 images in batches of 256 and a
    dictionary of 65536 entries. *)
Lemma first_epoch_too_small_aborts_witness :
  exists s',
    main (toy_world sym) (toy_args 65536 200) (SNat 1)
         (fun _ => replicate 195 (replicate 256 0) ++ [replicate 80 0]) toy_state
    = (Raise ZeroDivisionError, s').
Proof.
  destruct (first_epoch_too_small_aborts (toy_world sym) (toy_args 65536 200) (SNat 1)
              (fun _ => replicate 195 (replicate 256 0) ++ [replicate 80 0]) toy_state)
    as (s' & Hmain & _).
  - reflexivity.
  - apply Forall_app. split.
    + apply Forall_replicate. discriminate.
    + repeat constructor. discriminate.
  - vm_compute. discriminate.
  - exists s'. exact Hmain.
Defined.

(** X12. Over a whole run the key encoder is updated once at initialisation
    and then exactly once per gradient step of the query encoder, and there
    is one gradient step per loss; and no step of any epoch begins with more
    dictionary entries than [dictionary_size] (none at all when it is not
    positive).  This holds whether the run completes or stops at an epoch
    that does not train. *)
Theorem run_updates_are_paired {R : Type} `{Arith R, Transc R} (W : World R)
    `{!WorldOk W} (args : Args) (beta_default : R)
    (train_loader : nat -> list (list (Img W))) (s : state W) :
  (forall epoch, loader_ok W (train_loader epoch)) ->
  let evs := events_of W (main W args beta_default train_loader) s in
  count is_optimizer_step evs = count is_loss evs /\
  count is_momentum evs = 1 + count is_loss evs /\
  Forall (fun q => length q <= Z.to_nat (dictionary_size args)) (step_queues evs).
Proof.
  intros Hok evs. subst evs.
  set (s0 := State W (model_q W s) (momentum_update (model_q W s) (model_k W s) r_zero)
                   (optimizer W s) (rng W s) (trace W s ++ [EvMomentum r_zero])).
  assert (main W args beta_default train_loader s
          = epoch_loop W args beta_default train_loader (epoch_range args) [] s0)
    as Hmain by done.
  destruct (epoch_loop_outcome W args beta_default train_loader (epoch_range args) [] s0 Hok)
    as (evs & Htr & _ & _ & (Ho & Hm & Hq & _) & _).
  cbn [trace s0] in Htr. rewrite <- app_assoc in Htr.
  rewrite (events_of_extends W _ s ([EvMomentum r_zero] ++ evs))
    by (by rewrite Hmain).
  rewrite !count_app, step_queues_app, Ho, Hm.
  split; [done|]. split; [done|]. done.
Qed.

Lemma run_updates_are_paired_witness :
  let evs :=
    events_of (toy_world sym)
      (main (toy_world sym) (toy_args 2 2) (SNat 1) (fun _ => [[5; 6]; [7]; [8]])) toy_state in
  count is_momentum evs = 1 + count is_loss evs.
Proof.
  destruct (run_updates_are_paired (toy_world sym) (toy_args 2 2) (SNat 1)
              (fun _ => [[5; 6]; [7]; [8]]) toy_state) as (_ & Hm & _).
  - intros epoch. repeat constructor; discriminate.
  - exact Hm.
Defined.



(** ** Shuffling and the keys *)

Lemma index_select_map {A B : Type} (f : A -> B) (xs : list A) (idx : list nat) :
  forall ys, index_select xs idx = Ok ys -> index_select (map f xs) idx = Ok (map f ys).
Proof.
  induction idx as [|i idx IH]; intros ys Hsel; simpl in *.
  - by inversion Hsel.
  - change (map f xs) with (f <$> xs). rewrite list_lookup_fmap.
    destruct (xs !! i) as [x|]; [|done]. simpl.
    destruct (index_select xs idx) as [rows|e]; [|done].
    inversion Hsel; subst.
    change (f <$> xs) with (map f xs). by rewrite (IH rows eq_refl).
Qed.

Lemma toy_world_equivariant (R : Type) `{Arith R} : order_equivariant (toy_world R).
Proof. intros theta xs ys idx Hsel. simpl. by apply index_select_map. Qed.

(** X7. For an encoder that treats the rows of a batch independently of
    their order the shuffle of lines 40-43 is invisible: the key batch of the
    step, the one that is enqueued, is the key encoder's output on the batch
    in its original order. *)
Theorem keys_of_order_equivariant_encoder {R : Type} `{Arith R, Transc R} (W : World R)
    `{!WorldOk W} (args : Args) (beta_default temp : R) (loc : locals R)
    (data : list (Img W)) (s : state W) :
  order_equivariant W ->
  data <> [] ->
  exists loc' s',
    train_step W args beta_default temp loc data s = (Ok loc', s') /\
    step_keys (events_of W (train_step W args beta_default temp loc data) s)
    = [forward W (model_k W s) data] /\
    queue loc'
    = enqueue_evict (dictionary_size args) (queue loc) (forward W (model_k W s) data).
Proof.
  intros Hequiv Hdata.
  assert (step_ready args loc = true -> n_data loc + length data <> 0) as Hpos.
  { intros _. destruct data; [done|]. simpl. lia. }
  assert (step_k W s data = forward W (model_k W s) data) as Hk.
  { destruct (step_k_ok W s data) as (x_k & Hsel & Hback & _).
    pose proof (step_shuffle_inverse W s (length data)) as Hpair.
    destruct (inverse_pair_round_trip (length data) _ _ (forward W (model_k W s) data)
                Hpair (forward_length _ _)) as (shuffled & Hs & _ & Hb).
    rewrite (Hequiv _ _ _ _ Hsel) in Hs. inversion Hs; subst shuffled.
    rewrite Hback in Hb. by inversion Hb. }
  eexists _, _. split; [by apply train_step_eq|].
  rewrite (events_of_train_step W args beta_default temp s loc data Hpos).
  destruct (step_events_kinds W args beta_default temp s loc data)
    as (_ & _ & _ & _ & _ & _ & _ & Hkeys & _).
  rewrite Hkeys, step_locals_queue, Hk. done.
Qed.

Lemma keys_of_order_equivariant_encoder_witness :
  step_keys
    (events_of (toy_world sym)
       (train_step (toy_world sym) (toy_args 2 1) (SNat 1) temp_default train_locals
                   [5; 6; 7]) toy_state)
  = [forward (toy_world sym) [SNat 3; SNat 4] [5; 6; 7]].
Proof.
  destruct (keys_of_order_equivariant_encoder (toy_world sym) (toy_args 2 1) (SNat 1)
              temp_default train_locals [5; 6; 7] toy_state)
    as (loc' & s' & _ & Hkeys & _).
  - apply toy_world_equivariant.
  - discriminate.
  - exact Hkeys.
Defined.

(** X8. [get_shuffle_idx] hands back the permutation [torch.randperm] drew,
    and the reverse index it builds is itself a permutation of 0..N-1 that
    undoes the shuffle from the other side as well: [shuffle[reverse[i]] = i]
    for every [i < N].  Apart from the random generator it changes
    nothing. *)
Theorem get_shuffle_idx_reverse_permutation {R : Type} (W : World R) (N : nat)
    (s : state W) :
  (forall g n, (randperm W g n).1 ≡ₚ seq 0 n) ->
  exists reverse,
    get_shuffle_idx W N s
    = (Ok ((randperm W (rng W s) N).1, reverse),
       State W (model_q W s) (model_k W s) (optimizer W s)
             (randperm W (rng W s) N).2 (trace W s)) /\
    reverse ≡ₚ seq 0 N /\
    forall i, i < N ->
      exists j, reverse !! i = Some j /\ (randperm W (rng W s) N).1 !! j = Some i.
Proof.
  intros Hperm.
  destruct (get_shuffle_idx_ok W Hperm N s) as (reverse & Heq & Hpair).
  exists reverse. split; [exact Heq|].
  pose proof Hpair as (Hp & Hlen & Hinv).
  assert (forall i, i < N ->
            exists j, reverse !! i = Some j /\ (randperm W (rng W s) N).1 !! j = Some i)
    as Hback.
  { intros i Hi. destruct (inverse_pair_reverse N _ _ Hpair i Hi) as (j & Hj & Hji & _).
    by exists j. }
  split; [|exact Hback].
  apply NoDup_Permutation.
  - apply NoDup_alt. intros i1 i2 j H1 H2.
    assert (i1 < N) as Hi1 by (apply lookup_lt_Some in H1; lia).
    assert (i2 < N) as Hi2 by (apply lookup_lt_Some in H2; lia).
    destruct (Hback i1 Hi1) as (j1 & Hj1 & Hs1).
    destruct (Hback i2 Hi2) as (j2 & Hj2 & Hs2).
    rewrite H1 in Hj1. rewrite H2 in Hj2. inversion Hj1; inversion Hj2; subst.
    rewrite Hs1 in Hs2. by inversion Hs2.
  - apply NoDup_seq.
  - intros j. rewrite elem_of_seq. split.
    + intros Hin. apply list_elem_of_lookup in Hin as [i Hi].
      assert (i < N) as HiN by (apply lookup_lt_Some in Hi; lia).
      destruct (inverse_pair_reverse N _ _ Hpair i HiN) as (j' & Hj' & _ & Hlt).
      rewrite Hi in Hj'. inversion Hj'; subst. lia.
    + intros [_ Hj]. simpl in Hj.
      destruct (permutation_seq_bounds N _ Hp) as (Hplen & _).
      destruct (lookup_lt_is_Some_2 (randperm W (rng W s) N).1 j) as [i Hi]; [lia|].
      apply list_elem_of_lookup. exists i. by apply Hinv.
Qed.

Lemma get_shuffle_idx_reverse_permutation_witness :
  exists reverse,
    (get_shuffle_idx (toy_world sym) 4 toy_state).1 = Ok ([3; 2; 1; 0], reverse) /\
    reverse ≡ₚ seq 0 4.
Proof.
  destruct (get_shuffle_idx_reverse_permutation (toy_world sym) 4 toy_state)
    as (reverse & Heq & Hperm & _).
  - intros g n. simpl. symmetry. apply Permutation_rev.
  - exists reverse. split; [by rewrite Heq | exact Hperm].
Defined.

(** ** The dictionary of an epoch *)

Section EpochDictionary.
Context {R : Type} `{Arith R, Transc R} (W : World R) `{!WorldOk W}.
Variable args : Args.
Variable beta_default : R.
Variable temp : R.

Lemma loop_keys_lengths train_loader : forall (s : state W) loc,
  Forall2 (fun (k : list (list R)) (d : list (Img W)) => length k = length d)
    (step_keys (loop_events W args beta_default temp s loc train_loader)) train_loader.
Proof.
  induction train_loader as [|d rest IH]; intros s loc; [constructor|].
  cbn [loop_events]. rewrite step_keys_app.
  destruct (step_events_kinds W args beta_default temp s loc d)
    as (_ & _ & _ & _ & _ & _ & _ & Hk & _).
  rewrite Hk. constructor; [by apply step_k_length|apply IH].
Qed.

Lemma dictionary_run_most_recent {A : Type} (capacity : Z) (batches : list (list A)) :
  dictionary_run capacity [] batches = most_recent (Z.to_nat capacity) (concat batches).
Proof.
  destruct batches as [|k batches]; [done|]. by rewrite dictionary_run_cons.
Qed.

End EpochDictionary.

(** X9. When the loop over the loader ends, the dictionary of the epoch holds
    the most recent [dictionary_size] rows of the key batches the steps
    enqueued, oldest first, each key batch having one row per image of its
    step; it holds all of them while they are fewer. *)
Theorem epoch_dictionary_is_most_recent_keys {R : Type} `{Arith R, Transc R}
    (W : World R) `{!WorldOk W} (args : Args) (beta_default temp : R)
    (train_loader : list (list (Img W))) (s : state W) :
  loader_ok W train_loader ->
  exists loc s',
    train_loop W args beta_default temp train_locals train_loader s = (Ok loc, s') /\
    let keys :=
      step_keys (events_of W (train_loop W args beta_default temp train_locals train_loader) s)
    in
    Forall2 (fun (k : list (list R)) (d : list (Img W)) => length k = length d)
            keys train_loader /\
    queue loc = most_recent (Z.to_nat (dictionary_size args)) (concat keys) /\
    length (queue loc) = Z.to_nat (dictionary_size args) `min` n_samples train_loader.
Proof.
  intros Hok.
  pose proof (loader_ok_defined W args beta_default temp train_loader s train_locals Hok)
    as Hdef.
  eexists _, _. split; [by apply train_loop_eq|]. cbv zeta.
  rewrite (events_of_train_loop W args beta_default temp s train_locals train_loader Hdef).
  split; [apply loop_keys_lengths; done|]. split.
  - destruct (loop_events_history W args beta_default temp train_loader s train_locals)
      as (_ & _ & Hq).
    rewrite Hq. apply dictionary_run_most_recent.
  - rewrite (loop_queue_length W args beta_default temp) by (simpl; lia). done.
Qed.

Lemma epoch_dictionary_is_most_recent_keys_witness :
  exists loc s',
    train_loop (toy_world sym) (toy_args 3 1) (SNat 1) temp_default train_locals
               [[5; 6]; [7; 8]] toy_state = (Ok loc, s') /\
    length (queue loc) = 3.
Proof.
  destruct (epoch_dictionary_is_most_recent_keys (toy_world sym) (toy_args 3 1) (SNat 1)
              temp_default [[5; 6]; [7; 8]] toy_state)
    as (loc & s' & Hloop & _ & _ & Hlen).
  - repeat constructor; discriminate.
  - exists loc, s'. split; [exact Hloop | exact Hlen].
Defined.

(** * Evaluation *)

#[export] Instance toy_evaluator_ok (R : Type) `{Arith R} : EvaluatorOk (toy_evaluator R).
Proof.
  split.
  - intros theta xs. simpl. apply length_map.
  - intros row. simpl. done.
  - intros row bins. simpl. apply length_replicate.
Qed.

Section TestLemmas.
Context {R : Type} `{Arith R} (W : World R) (E : Evaluator R W) `{!EvaluatorOk E}.

(** The memory bank has one row per reference image. *)
Lemma memory_bank_length (theta : list R) (batches : list (list (Img W))) :
  length (concat (map (forward_eval E theta) batches)) = n_samples batches.
Proof.
  unfold n_samples. induction batches as [|b bs IH]; [done|].
  simpl. rewrite !length_app, forward_eval_length. lia.
Qed.

Lemma existsb_take_mono {A : Type} (f : A -> bool) (j k : nat) (l : list A) :
  j <= k -> existsb f (take j l) = true -> existsb f (take k l) = true.
Proof.
  intros Hjk Hj.
  rewrite <- (take_drop j (take k l)), take_take.
  replace (j `min` k) with j by lia.
  by rewrite existsb_app, Hj.
Qed.

Lemma top_hits_bounds (pred_labels : list (list nat)) : forall (target : list nat),
  top_hits 1 pred_labels target <= top_hits 5 pred_labels target /\
  top_hits 5 pred_labels target <= length target.
Proof.
  unfold top_hits.
  induction pred_labels as [|row rows IH]; intros [|tgt target]; simpl; try lia.
  destruct (IH target) as [IH1 IH5].
  pose proof (existsb_take_mono (Nat.eqb tgt) 1 5 row ltac:(lia)) as Hmono.
  destruct (existsb (Nat.eqb tgt) (take 1 row)) eqn:H1.
  - rewrite (Hmono eq_refl). simpl. lia.
  - destruct (existsb (Nat.eqb tgt) (take 5 row)); simpl; lia.
Qed.

Lemma length_concat_uniform {A : Type} (k : nat) (rows : list (list A)) :
  Forall (fun row => length row = k) rows -> length (concat rows) = length rows * k.
Proof.
  induction 1 as [|row rows Hrow _ IH]; [done|].
  simpl. rewrite length_app, IH, Hrow. lia.
Qed.

Lemma view_rows_ok {A : Type} (B k : nat) (flat : list A) :
  B <> 0 -> length flat = B * k ->
  exists rows, view_rows B flat = Done rows /\ length rows = B.
Proof.
  intros HB Hlen. unfold view_rows.
  rewrite decide_False by done.
  rewrite decide_True.
  - eexists. split; [done|]. by rewrite length_map, length_seq.
  - rewrite Hlen, Nat.mul_comm. by apply Nat.Div0.mod_mul.
Qed.

(** A batch with at least one sample is scored without an error when every
    reference embedding has its label. *)
Lemma test_step_ok (features : nat) (theta : list R) (memory_bank : tensor2 R)
    (labels : list nat) (classes : nat) (acc : totals) (batch : list (Img W * nat)) :
  batch <> [] ->
  length labels = cols2 memory_bank ->
  exists h1 h5,
    h1 <= h5 /\ h5 <= length batch /\
    test_step W E features theta memory_bank labels classes acc batch
    = Done (Totals (total_top1 acc + h1) (total_top5 acc + h5) (seen acc + length batch)).
Proof.
  intros Hne Hlabels. unfold test_step.
  set (data := map fst batch). set (target := map snd batch).
  set (sim := mm (tensor_of_rows features (forward_eval E theta data)) memory_bank).
  set (k := cols2 memory_bank `min` 200).
  set (sim_index :=
         map (fun i => take k (argsort_descending E (row_of sim i))) (seq 0 (rows2 sim))).
  assert (length data = length batch) as Hdata by apply length_map.
  assert (length target = length batch) as Htarget by apply length_map.
  assert (length batch <> 0) as HB by (by destruct batch).
  assert (rows2 sim = length batch) as Hrows.
  { subst sim. cbn [rows2 mm tensor_of_rows]. by rewrite forward_eval_length. }
  assert (forall i, length (argsort_descending E (row_of sim i)) = cols2 memory_bank)
    as Hsort.
  { intros i. rewrite (argsort_permutation (row_of sim i)), length_seq.
    unfold row_of. by rewrite length_map, length_seq. }
  assert (Forall (fun row => length row = k) sim_index) as Huniform.
  { subst sim_index. apply Forall_fmap, Forall_forall. intros i _. simpl.
    rewrite length_take, Hsort. subst k. lia. }
  assert (Forall (fun i => i < length labels) (concat sim_index)) as Hbound.
  { apply Forall_concat. subst sim_index. apply Forall_fmap, Forall_forall.
    intros i _. simpl. apply Forall_forall. intros j Hj.
    apply elem_of_take in Hj as (p & Hp & _).
    apply list_elem_of_lookup_2 in Hp.
    rewrite (argsort_permutation (row_of sim i)) in Hp.
    apply elem_of_seq in Hp. unfold row_of in Hp.
    rewrite length_map, length_seq in Hp. cbn [cols2 sim mm] in Hp. lia. }
  destruct (index_select_ok labels (concat sim_index) Hbound)
    as (selected & Hsel & Hsellen & _).
  rewrite Hsel. cbn [of_result eval_bind].
  destruct (view_rows_ok (length data) k selected) as (sim_labels & Hview & Hviewlen).
  { lia. }
  { rewrite Hsellen, (length_concat_uniform k _ Huniform).
    subst sim_index. rewrite length_map, length_seq. lia. }
  rewrite Hview. cbn [eval_bind].
  set (pred_labels :=
         map (fun sim_label =>
                argsort_descending E (histc E (map r_of_nat sim_label) classes))
             sim_labels).
  destruct (top_hits_bounds pred_labels target) as [H15 H5].
  exists (top_hits 1 pred_labels target), (top_hits 5 pred_labels target).
  split; [done|]. split; [lia|].
  unfold percent. rewrite !decide_False by lia. cbn [eval_bind].
  by rewrite Hdata.
Qed.


End TestLemmas.



(** X11. [test] cannot work on nothing: with a reference loader that
    delivers no batch it raises RuntimeError (there is nothing for
    [torch.cat] to join), and so it does at the first test batch that holds
    no sample, whatever was scored before (the row length of [view] cannot be
    inferred). *)
Theorem test_rejects_empty {R : Type} `{Arith R} (W : World R) (E : Evaluator R W)
    `{!EvaluatorOk E} (features : nat) (theta : list R)
    (train_loader : reference_loader W)
    (scored later : list (list (Img W * nat))) :
  (reference_batches train_loader = [] ->
   forall test_loader, test W E features theta train_loader test_loader
                       = Failed RuntimeError) /\
  (reference_batches train_loader <> [] ->
   length (dataset_targets train_loader) = n_samples (reference_batches train_loader) ->
   Forall (fun batch => batch <> []) scored ->
   test W E features theta train_loader (scored ++ [] :: later) = Failed RuntimeError).
Proof.
  split.
  - intros Hempty test_loader. unfold test. by rewrite Hempty.
  - intros Hne Htargets Hok. unfold test.
    destruct (reference_batches train_loader) as [|b0 bs] eqn:Hbatches; [done|].
    rewrite <- Hbatches in *. clear Hne.
    assert (torch_cat (map (forward_eval E theta) (reference_batches train_loader))
            = Done (concat (map (forward_eval E theta) (reference_batches train_loader))))
      as Hcat by (by rewrite Hbatches).
    rewrite Hcat. cbn [eval_bind].
    set (memory_bank := t (tensor_of_rows features _)).
    assert (length (dataset_targets train_loader) = cols2 memory_bank) as Hlabels.
    { subst memory_bank. cbn [cols2 t rows2 tensor_of_rows].
      rewrite Htargets. symmetry. apply (memory_bank_length W E). }
    assert (forall acc,
              test_loop W E features theta memory_bank (dataset_targets train_loader)
                        (dataset_classes train_loader) acc (scored ++ [] :: later)
              = Failed RuntimeError) as Hloop.
    { clear Hcat. induction scored as [|batch rest IH]; intros acc.
      - cbn [app test_loop]. unfold test_step.
        assert (forward_eval E theta (map fst (@nil (Img W * nat))) = []) as ->.
        { apply nil_length_inv. by rewrite forward_eval_length. }
        simpl. done.
      - apply Forall_cons in Hok as [Hbatch Hrest].
        destruct (test_step_ok W E features theta memory_bank _
                    (dataset_classes train_loader) acc batch Hbatch Hlabels)
          as (h1 & h5 & _ & _ & Hstep).
        cbn [app test_loop]. rewrite Hstep. cbn [eval_bind]. by apply IH. }
    by rewrite Hloop.
Qed.

Lemma test_rejects_empty_witness :
  test (toy_world sym) (toy_evaluator sym) 2 [SNat 1; SNat 2]
       toy_reference ([[(4, 0)]] ++ [] :: [[(5, 1)]])
  = Failed RuntimeError.
Proof.
  destruct (test_rejects_empty (toy_world sym) (toy_evaluator sym) 2 [SNat 1; SNat 2]
              toy_reference [[(4, 0)]] [[(5, 1)]]) as [_ Hbatch].
  apply Hbatch.
  - discriminate.
  - reflexivity.
  - repeat constructor; discriminate.
Defined.
